(** * The finality-provider application: a shallow embedding of
      [finality-provider/service/app.go]

    The application object of the finality-provider daemon owns a store of
    finality providers, a manager of running instances, and four loops that
    talk to each other over channels.  Its external collaborators (the
    consumer chain behind [ClientController], the EOTS manager, the keyring,
    the encoding libraries) are Go interfaces or other packages; here they
    are fields of a record of oracles, [World], so that every function of
    [app.go] is a function of the application state and of what the outside
    answers. *)

From Stdlib Require Import NArith ZArith Lia.
From stdpp Require Import base option list strings gmap fin_maps.

Local Open Scope string_scope.
Local Open Scope list_scope.
Local Open Scope N_scope.

(** ** Errors and results *)

(** A Go [error]: a message, or a message wrapping a cause ([%w]). *)
Inductive error : Type :=
| Errorf (msg : string)
| Wrapf (msg : string) (cause : error).

(** A Go pair [(value, err)] in which exactly one side is meaningful. *)
Inductive result (A : Type) : Type :=
| Ok (a : A)
| Err (e : error).
Arguments Ok {A} a.
Arguments Err {A} e.

Definition is_ok {A} (r : result A) : bool :=
  match r with Ok _ => true | Err _ => false end.

Definition is_err {A} (r : result A) : bool := negb (is_ok r).

(** ** Data *)

Definition bytes := list Byte.byte.

#[global] Instance byte_eq_dec : EqDecision Byte.byte := Byte.byte_eq_dec.

(** A BIP-340 public key is the 32-byte x coordinate; it is kept as the
    number those bytes encode.  [BIP340PubKey] and [btcec.PublicKey] differ
    only in representation, so the conversions between them are read as the
    identity. *)
Definition PK := N.
Definition MustToBTCPK (pk : PK) : PK := pk.
Definition MustMarshal (pk : PK) : PK := pk.
Definition NewBIP340PubKeyFromBTCPK (pk : PK) : PK := pk.
Definition GetBIP340BTCPK (pk : PK) : PK := pk.

(** [proto.FinalityProviderStatus] *)
Inductive FinalityProviderStatus : Type :=
| CREATED | REGISTERED | ACTIVE | INACTIVE | JAILED | SLASHED.

#[global] Instance FinalityProviderStatus_eq_dec : EqDecision FinalityProviderStatus.
Proof. solve_decision. Defined.

(** [bstypes.BTCSigType] *)
Inductive BTCSigType : Type := BIP340 | BIP322 | ECDSA.

#[global] Instance BTCSigType_eq_dec : EqDecision BTCSigType.
Proof. solve_decision. Defined.

Record ProofOfPossessionBTC : Type := {
  BtcSigType : BTCSigType;
  BtcSig : bytes
}.

Record Description : Type := {
  Moniker : string;
  Identity : string;
  Website : string;
  SecurityContact : string;
  Details : string
}.

(** [store.StoredFinalityProvider]; [Commission] is a [LegacyDec], an
    integer count of 10^-18 units. *)
Record StoredFinalityProvider : Type := {
  FPAddr : string;
  BtcPk : PK;
  Descr : Description;
  Commission : Z;
  ChainID : string;
  KeyName : string;
  Pop : bytes;
  LastVotedHeight : N;
  Status : FinalityProviderStatus
}.

Definition with_Status (s : FinalityProviderStatus) (fp : StoredFinalityProvider)
  : StoredFinalityProvider :=
  {| FPAddr := FPAddr fp; BtcPk := BtcPk fp; Descr := Descr fp;
     Commission := Commission fp; ChainID := ChainID fp; KeyName := KeyName fp;
     Pop := Pop fp; LastVotedHeight := LastVotedHeight fp; Status := s |}.

Definition with_LastVotedHeight (h : N) (fp : StoredFinalityProvider)
  : StoredFinalityProvider :=
  {| FPAddr := FPAddr fp; BtcPk := BtcPk fp; Descr := Descr fp;
     Commission := Commission fp; ChainID := ChainID fp; KeyName := KeyName fp;
     Pop := Pop fp; LastVotedHeight := h; Status := Status fp |}.

(** [types.BlockInfo] *)
Record BlockInfo : Type := {
  Height : N;
  Hash : bytes
}.

(** [proto.FinalityProviderInfo], the view of a stored provider that is
    handed back to callers. *)
Record FinalityProviderInfo : Type := {
  info_FpAddr : string;
  info_BtcPk : PK;
  info_Descr : Description;
  info_Commission : Z;
  info_LastVotedHeight : N;
  info_Status : FinalityProviderStatus
}.

Record RegisterFinalityProviderResponse : Type := {
  bbnAddress : bytes;
  btcPubKey : PK;
  TxHash : string
}.

Record createFinalityProviderRequest : Type := {
  req_keyName : string;
  req_chainID : string;
  req_passPhrase : string;
  req_hdPath : string;
  req_eotsPk : option PK;          (* a pointer: may be nil *)
  req_description : Description;
  req_commission : Z
}.

Record createFinalityProviderResponse : Type := {
  FpInfo : FinalityProviderInfo
}.

(** ** The finality-provider store *)

Module store.

(** Modelled from the spec: the package [finality-provider/store] is not
    among the sources.  The bucket [finality_providers] maps [btc_pk] to
    the stored record (§6); a lookup of an absent key is an error. *)
Definition GetFinalityProvider (fps : gmap PK StoredFinalityProvider) (pk : PK)
  : result StoredFinalityProvider :=
  match fps !! pk with
  | Some fp => Ok fp
  | None => Err (Errorf "the finality provider is not found")
  end.

(** Modelled from the spec: the store's listing of all records, absent
    from the sources; one entry per key. *)
Definition GetAllStoredFinalityProviders (fps : gmap PK StoredFinalityProvider)
  : result (list StoredFinalityProvider) :=
  Ok ((map_to_list fps).*2).

(** Modelled from the spec: the store's [CreateFinalityProvider], absent
    from the sources.  [btc_pk] is the primary key and unique across the
    stored providers (§3), so a second record under a key is refused; a
    new record starts in CREATED with [last_voted_height] 0 (§3). *)
Definition CreateFinalityProvider (fps : gmap PK StoredFinalityProvider)
    (fpAddr : string) (btcPk : PK) (description : Description)
    (commission : Z) (keyName chainID : string) (sig : bytes)
  : result (gmap PK StoredFinalityProvider) :=
  match fps !! btcPk with
  | Some _ => Err (Errorf "the finality provider already exists")
  | None =>
      Ok (<[btcPk := {| FPAddr := fpAddr; BtcPk := btcPk; Descr := description;
                        Commission := commission; ChainID := chainID;
                        KeyName := keyName; Pop := sig;
                        LastVotedHeight := 0; Status := CREATED |}]> fps)
  end.

(** Modelled from the spec: the store's [SetFpStatus], absent from the
    sources.  Status writes go through an update that refuses transitions
    out of SLASHED (§5); every other write replaces the status of the
    record and nothing else. *)
Definition SetFpStatus (fps : gmap PK StoredFinalityProvider) (pk : PK)
    (status : FinalityProviderStatus)
  : result (gmap PK StoredFinalityProvider) :=
  match fps !! pk with
  | None => Err (Errorf "the finality provider is not found")
  | Some fp =>
      if bool_decide (Status fp = SLASHED ∧ status ≠ SLASHED)
      then Err (Errorf "the finality provider is slashed")
      else Ok (<[pk := with_Status status fp]> fps)
  end.

(** Modelled from the spec: [ShouldStart], absent from the sources.  Only
    providers in ACTIVE, INACTIVE or REGISTERED are eligible to be
    started (§4.1). *)
Definition ShouldStart (fp : StoredFinalityProvider) : bool :=
  match Status fp with
  | REGISTERED | ACTIVE | INACTIVE => true
  | _ => false
  end.

(** Modelled from the spec: the write of [last_voted_height], absent from
    the sources; it replaces that field of the record and nothing else. *)
Definition SetFpLastVotedHeight (fps : gmap PK StoredFinalityProvider) (pk : PK)
    (h : N) : result (gmap PK StoredFinalityProvider) :=
  match fps !! pk with
  | None => Err (Errorf "the finality provider is not found")
  | Some fp => Ok (<[pk := with_LastVotedHeight h fp]> fps)
  end.

(** Modelled from the spec: [ToFinalityProviderInfo], absent from the
    sources; the fields of §3 that a caller is shown. *)
Definition ToFinalityProviderInfo (fp : StoredFinalityProvider)
  : FinalityProviderInfo :=
  {| info_FpAddr := FPAddr fp; info_BtcPk := BtcPk fp;
     info_Descr := Descr fp; info_Commission := Commission fp;
     info_LastVotedHeight := LastVotedHeight fp;
     info_Status := Status fp |}.

End store.

(** ** The outside world *)

(** [types.TxResponse] carries the hash of the transaction. *)
Definition TxResponse := string.

(** The verdict of the chain on a submission of finality signatures (§4.6):
    a transaction hash, or an error that is retriable, permanent, or says
    that a height was already voted or double-signed. *)
Inductive SubmitVerdict : Type :=
| Submitted (tx : TxResponse)
| AlreadyVoted (h : N)
| DoubleSign (h : N)
| Retriable (e : error)
| Permanent (e : error).

(** What the collaborators of the application answer.  [cc_] fields are the
    methods of [clientcontroller.ClientController], [em_] the ones of
    [eotsmanager.EOTSManager], [fpm_] the ones of the finality-provider
    manager, [kr_] the keyring controller; [pubrand_GetPubRandProof] reads
    the store of public-randomness proofs; the others are functions of the
    [babylon], [cosmos-sdk] and [cometbft] packages.  The number given to
    [cc_SubmitBatchFinalitySigs] is the attempt, so that a retry may be
    answered differently. *)
Record World : Type := {
  cc_QueryBestBlock : result BlockInfo;
  cc_QueryFinalityProviderVotingPower : PK → N → result N;
  cc_RegisterFinalityProvider : PK → bytes → Z → bytes → result TxResponse;
  cc_UnjailFinalityProvider : PK → result TxResponse;
  cc_SubmitBatchFinalitySigs : PK → list BlockInfo → nat → SubmitVerdict;
  em_SignSchnorrSig : PK → bytes → string → result bytes;
  em_SignEOTS : PK → string → bytes → N → result bytes;
  em_Close : option error;
  fpm_StartFinalityProvider : PK → string → option error;
  fpm_Stop : option error;
  kr_NewChainKeyringControllerWithKeyring : string → option error;
  kr_Address : string → string → result bytes;
  pubrand_GetPubRandProof : PK → string → N → option bytes;
  tmhash_Sum : bytes → bytes;
  schnorr_Verify : PK → bytes → bytes → bool;
  NewBIP340PubKeyFromHex : string → result PK;
  NewBIP340Signature : bytes → result bytes;
  AccAddressFromBech32 : string → result bytes;
  AccAddress_String : bytes → string;
  pop_Marshal : ProofOfPossessionBTC → result bytes;
  description_Marshal : Description → result bytes
}.

(** ** The application state and its effects *)

Inductive Level : Type := LDebug | LInfo | LError | LFatal.

Inductive Loop : Type :=
| syncChainFpStatusLoop_ | eventLoop_ | registrationLoop_ | metricsUpdateLoop_.

(** A transaction handed to the chain through the [ClientController]. *)
Inductive ChainTx : Type :=
| TxRegister (pk : PK) (pop : bytes) (commission : Z) (description : bytes)
| TxUnjail (pk : PK)
| TxFinalitySigs (pk : PK) (heights : list N).

(** What the application does that is visible outside its own memory, in
    program order. *)
Inductive Effect : Type :=
| ELog (l : Level) (msg : string)
| ESubmit (tx : ChainTx)
| EStatusWrite (pk : PK) (s : FinalityProviderStatus)
| ERecordFpStatus (pk : PK) (s : FinalityProviderStatus)
| EGo (l : Loop)
| ECloseQuit
| EWait
| EReplyRegistered (resp : RegisterFinalityProviderResponse)
| EReplyError (e : error).

(** [FinalityProviderApp], as far as its behaviour is concerned: the store,
    the instances the manager runs, the two [sync.Once], the wait group, the
    [quit] channel, and the history of effects. *)
Record App : Type := {
  fps : gmap PK StoredFinalityProvider;
  running : gset PK;
  startOnce : bool;
  stopOnce : bool;
  wg : nat;
  quit : bool;
  history : list Effect
}.

Definition NewFinalityProviderApp : App :=
  {| fps := ∅; running := ∅; startOnce := false; stopOnce := false;
     wg := 0; quit := false; history := [] |}.

Definition set_fps (m : gmap PK StoredFinalityProvider) (a : App) : App :=
  {| fps := m; running := running a; startOnce := startOnce a;
     stopOnce := stopOnce a; wg := wg a; quit := quit a; history := history a |}.

Definition set_running (r : gset PK) (a : App) : App :=
  {| fps := fps a; running := r; startOnce := startOnce a;
     stopOnce := stopOnce a; wg := wg a; quit := quit a; history := history a |}.

Definition set_startOnce (b : bool) (a : App) : App :=
  {| fps := fps a; running := running a; startOnce := b;
     stopOnce := stopOnce a; wg := wg a; quit := quit a; history := history a |}.

Definition set_stopOnce (b : bool) (a : App) : App :=
  {| fps := fps a; running := running a; startOnce := startOnce a;
     stopOnce := b; wg := wg a; quit := quit a; history := history a |}.

Definition set_wg (n : nat) (a : App) : App :=
  {| fps := fps a; running := running a; startOnce := startOnce a;
     stopOnce := stopOnce a; wg := n; quit := quit a; history := history a |}.

Definition set_quit (b : bool) (a : App) : App :=
  {| fps := fps a; running := running a; startOnce := startOnce a;
     stopOnce := stopOnce a; wg := wg a; quit := b; history := history a |}.

Definition emit (e : Effect) (a : App) : App :=
  {| fps := fps a; running := running a; startOnce := startOnce a;
     stopOnce := stopOnce a; wg := wg a; quit := quit a;
     history := history a ++ [e] |}.

(** ** A monad for code that changes the application and may fail

    A method of [*FinalityProviderApp] that returns [(T, error)] is a
    function from the application to the application afterwards and a
    result.  What was done before an error stays done. *)
Definition M (A : Type) : Type := App → App * result A.

Definition ret {A} (x : A) : M A := λ a, (a, Ok x).
Definition fail {A} (e : error) : M A := λ a, (a, Err e).

Definition bind {A B} (m : M A) (k : A → M B) : M B :=
  λ a, match m a with
       | (a', Ok x) => k x a'
       | (a', Err e) => (a', Err e)
       end.

Notation "'do' x <- m ; k" := (bind m (λ x, k))
  (at level 10, x name, m at level 100, k at level 200,
   format "'[v' 'do'  x  <-  m ; '/' k ']'").
Notation "'exec' m ; k" := (bind m (λ _, k))
  (at level 10, m at level 100, k at level 200,
   format "'[v' 'exec'  m ; '/' k ']'").

(** A pure [(value, err)] inside the monad. *)
Definition lift {A} (r : result A) : M A := λ a, (a, r).

(** A call that returns only an [error]. *)
Definition check (o : option error) : M unit :=
  λ a, match o with Some e => (a, Err e) | None => (a, Ok tt) end.

(** [fmt.Errorf("msg: %w", err)] on the error path. *)
Definition wrapf {A} (msg : string) (m : M A) : M A :=
  λ a, match m a with
       | (a', Ok x) => (a', Ok x)
       | (a', Err e) => (a', Err (Wrapf msg e))
       end.

Definition effect (e : Effect) : M unit := λ a, (emit e a, Ok tt).
Definition log (l : Level) (msg : string) : M unit := effect (ELog l msg).

(** ** Calls into the store and into the manager *)

Definition fps_GetFinalityProvider (pk : PK) : M StoredFinalityProvider :=
  λ a, (a, store.GetFinalityProvider (fps a) pk).

Definition fps_GetAllStoredFinalityProviders : M (list StoredFinalityProvider) :=
  λ a, (a, store.GetAllStoredFinalityProviders (fps a)).

Definition fps_SetFpStatus (pk : PK) (s : FinalityProviderStatus) : M unit :=
  λ a, match store.SetFpStatus (fps a) pk s with
       | Ok m => (emit (EStatusWrite pk s) (set_fps m a), Ok tt)
       | Err e => (a, Err e)
       end.

(** Modelled from the spec: the store's [UpdateFpStatusFromVotingPower],
    absent from the sources.  SLASHED dominates every other signal (§4.1);
    otherwise the transitions are the ones the comment on
    [syncChainFpStatusLoop] gives: some voting power sets ACTIVE, zero
    voting power takes CREATED to REGISTERED and ACTIVE to INACTIVE.  The
    Go function returns the new status next to the error of the write. *)
Definition fps_UpdateFpStatusFromVotingPower (vp : N) (fp : StoredFinalityProvider)
  : M FinalityProviderStatus :=
  if bool_decide (Status fp = SLASHED) then ret SLASHED
  else if 0 <? vp then
    exec fps_SetFpStatus (BtcPk fp) ACTIVE; ret ACTIVE
  else match Status fp with
       | CREATED => exec fps_SetFpStatus (BtcPk fp) REGISTERED; ret REGISTERED
       | ACTIVE => exec fps_SetFpStatus (BtcPk fp) INACTIVE; ret INACTIVE
       | s => ret s
       end.

Definition fps_CreateFinalityProvider (fpAddr : string) (btcPk : PK)
    (description : Description) (commission : Z) (keyName chainID : string)
    (sig : bytes) : M unit :=
  λ a, match store.CreateFinalityProvider (fps a) fpAddr btcPk description
               commission keyName chainID sig with
       | Ok m => (set_fps m a, Ok tt)
       | Err e => (a, Err e)
       end.

(** The manager keeps the set of providers that have a live instance;
    whether a start succeeds is the manager's answer. *)
Definition IsFinalityProviderRunning (pk : PK) : M bool :=
  λ a, (a, Ok (bool_decide (pk ∈ running a))).

Definition StartFinalityProvider (w : World) (pk : PK) (passphrase : string)
  : M unit :=
  λ a, match fpm_StartFinalityProvider w pk passphrase with
       | Some e => (a, Err e)
       | None => (set_running ({[pk]} ∪ running a) a, Ok tt)
       end.

(** The four loops serve requests from [Start] until [quit] is closed; a
    request sent on an unbuffered channel at any other time is never
    received, and the sender does not return. *)
Definition loops_running (a : App) : bool := startOnce a && negb (quit a).

(** A submission handed to the [ClientController]; the effect records the
    call, whatever the chain answers. *)
Definition submit {A} (tx : ChainTx) (answer : result A) : M A :=
  λ a, (emit (ESubmit tx) a, answer).

(** ** [app.go] *)

(** A Schnorr signature is kept as its 64-byte serialisation, so wrapping
    it as a [BIP340Signature] and marshalling it gives the same bytes. *)
Definition NewBIP340SignatureFromBTCSig (sig : bytes) : bytes := sig.
Definition sig_MustMarshal (sig : bytes) : bytes := sig.

Definition CreatePop (w : World) (fpAddress : bytes) (fpPk : PK)
    (passphrase : string) : M ProofOfPossessionBTC :=
  let hash := tmhash_Sum w fpAddress in
  do sig <- wrapf "failed to get schnorr signature from the EOTS manager"
              (lift (em_SignSchnorrSig w (MustMarshal fpPk) hash passphrase));
  ret {| BtcSigType := BIP340;
         BtcSig := sig_MustMarshal (NewBIP340SignatureFromBTCSig sig) |}.

Definition handleCreateFinalityProviderRequest (w : World)
    (req : createFinalityProviderRequest) : M createFinalityProviderResponse :=
  exec check (kr_NewChainKeyringControllerWithKeyring w (req_keyName req));
  do fpAddr <- wrapf ("the keyname " ++ req_keyName req ++
                      " does not exist, add the key first")%string
                 (lift (kr_Address w (req_keyName req) (req_passPhrase req)));
  match req_eotsPk req with
  | None => fail (Errorf "eots pk cannot be nil")
  | Some eotsPk =>
      do pop <- wrapf "failed to create proof-of-possession of the finality-provider"
                  (CreatePop w fpAddr eotsPk (req_passPhrase req));
      let btcPk := MustToBTCPK eotsPk in
      exec wrapf "failed to save finality-provider"
             (fps_CreateFinalityProvider (AccAddress_String w fpAddr) btcPk
                (req_description req) (req_commission req) (req_keyName req)
                (req_chainID req) (BtcSig pop));
      exec effect (ERecordFpStatus eotsPk CREATED);
      exec log LInfo "successfully created a finality-provider";
      do storedFp <- fps_GetFinalityProvider btcPk;
      ret {| FpInfo := store.ToFinalityProviderInfo storedFp |}
  end.

(** The case of [eventLoop] that serves a creation request: the answer goes
    to [errResponse] or to [successResponse]. *)
Definition eventLoop_create (w : World) (req : createFinalityProviderRequest)
  : M createFinalityProviderResponse :=
  do res <- handleCreateFinalityProviderRequest w req;
  ret {| FpInfo := FpInfo res |}.

(** [CreateFinalityProvider] sends the request to [eventLoop] and waits for
    the answer; [None] when no loop receives the request. *)
Definition CreateFinalityProvider (w : World) (req : createFinalityProviderRequest)
  : App → App * option (result createFinalityProviderResponse) :=
  λ a, if loops_running a
       then let '(a', r) := eventLoop_create w req a in (a', Some r)
       else (a, None).

Record registerFinalityProviderRequest : Type := {
  rr_fpAddr : bytes;
  rr_btcPubKey : PK;
  rr_pop : ProofOfPossessionBTC;
  rr_description : Description;
  rr_commission : Z
}.

Record finalityProviderRegisteredEvent : Type := {
  ev_bbnAddress : bytes;
  ev_btcPubKey : PK;
  ev_txHash : string
}.

(** The part of [RegisterFinalityProvider] that runs in the caller, up to
    the request that is sent to [registrationLoop]. *)
Definition RegisterFinalityProvider_request (w : World) (fpPkStr : string)
  : M registerFinalityProviderRequest :=
  do fpPk <- lift (NewBIP340PubKeyFromHex w fpPkStr);
  do fp <- fps_GetFinalityProvider (MustToBTCPK fpPk);
  if bool_decide (Status fp ≠ CREATED)
  then fail (Errorf "finality-provider is already registered")
  else
    do btcSig <- lift (NewBIP340Signature w (Pop fp));
    let pop := {| BtcSig := sig_MustMarshal btcSig; BtcSigType := BIP340 |} in
    do fpAddr <- lift (AccAddressFromBech32 w (FPAddr fp));
    ret {| rr_fpAddr := fpAddr;
           rr_btcPubKey := NewBIP340PubKeyFromBTCPK (BtcPk fp);
           rr_pop := pop;
           rr_description := Descr fp;
           rr_commission := Commission fp |}.

(** The case of [registrationLoop] that serves a request, up to the event
    it sends to [eventLoop]; an error is what goes to [errResponse]. *)
Definition registrationLoop_request (w : World) (req : registerFinalityProviderRequest)
  : M finalityProviderRegisteredEvent :=
  do popBytes <- lift (pop_Marshal w (rr_pop req));
  do desBytes <- lift (description_Marshal w (rr_description req));
  do res <- (λ a,
      match submit (TxRegister (MustToBTCPK (rr_btcPubKey req)) popBytes
                      (rr_commission req) desBytes)
              (cc_RegisterFinalityProvider w (MustToBTCPK (rr_btcPubKey req))
                 popBytes (rr_commission req) desBytes) a with
      | (a', Err e) =>
          (emit (ELog LError "failed to register finality-provider") a', Err e)
      | (a', Ok res) => (a', Ok res)
      end);
  exec log LInfo "successfully registered finality-provider on babylon";
  ret {| ev_btcPubKey := rr_btcPubKey req;
         ev_bbnAddress := rr_fpAddr req;
         ev_txHash := res |}.

(** [req.errResponse <- err] *)
Definition reply_error {A} (m : M A) : M A :=
  λ a, match m a with
       | (a', Err e) => (emit (EReplyError e) a', Err e)
       | (a', Ok x) => (a', Ok x)
       end.

(** The case of [eventLoop] that serves a registered event.  When the
    status cannot be written [logger.Fatal] ends the process: nothing is
    sent to the caller, which is the answer [None]. *)
Definition eventLoop_registered (ev : finalityProviderRegisteredEvent)
  : App → App * option RegisterFinalityProviderResponse :=
  λ a, match fps_SetFpStatus (MustToBTCPK (ev_btcPubKey ev)) REGISTERED a with
       | (a', Err e) =>
           (emit (ELog LFatal "failed to set finality-provider status to REGISTERED") a',
            None)
       | (a', Ok _) =>
           let resp := {| bbnAddress := ev_bbnAddress ev;
                          btcPubKey := ev_btcPubKey ev;
                          TxHash := ev_txHash ev |} in
           (emit (EReplyRegistered resp)
              (emit (ERecordFpStatus (ev_btcPubKey ev) REGISTERED) a'),
            Some resp)
       end.

(** [RegisterFinalityProvider]: the checks in the caller, the request
    through [registrationLoop], the event through [eventLoop], and the
    answer the caller receives; [None] when there is no answer. *)
Definition RegisterFinalityProvider (w : World) (fpPkStr : string)
  : App → App * option (result RegisterFinalityProviderResponse) :=
  λ a, match RegisterFinalityProvider_request w fpPkStr a with
       | (a1, Err e) => (a1, Some (Err e))
       | (a1, Ok request) =>
           if loops_running a1 then
             match reply_error (registrationLoop_request w request) a1 with
             | (a2, Err e) => (a2, Some (Err e))
             | (a2, Ok ev) =>
                 match eventLoop_registered ev a2 with
                 | (a3, Some resp) => (a3, Some (Ok resp))
                 | (a3, None) => (a3, None)
                 end
             end
           else (a1, None)
       end.

(** The body of the loop of [SyncFinalityProviderStatus] over the stored
    providers; [continue] is the recursive call, [return false, err] the
    error. *)
Fixpoint sync_fps (w : World) (height : N) (l : list StoredFinalityProvider)
    (fpInstanceRunning : bool) : M bool :=
  match l with
  | [] => ret fpInstanceRunning
  | fp :: rest =>
      match cc_QueryFinalityProviderVotingPower w (BtcPk fp) height with
      | Err _ => sync_fps w height rest fpInstanceRunning
      | Ok vp =>
          let bip340PubKey := GetBIP340BTCPK (BtcPk fp) in
          do isRunning <- IsFinalityProviderRunning bip340PubKey;
          if isRunning : bool then sync_fps w height rest true
          else
            let oldStatus := Status fp in
            do newStatus <- fps_UpdateFpStatusFromVotingPower vp fp;
            do fp <- (if bool_decide (oldStatus ≠ newStatus)
                      then exec log LInfo "Update FP status";
                           ret (with_Status newStatus fp)
                      else ret fp);
            if negb (store.ShouldStart fp) then sync_fps w height rest fpInstanceRunning
            else
              exec StartFinalityProvider w bip340PubKey "";
              sync_fps w height rest true
      end
  end.

(** [SyncFinalityProviderStatus]; an error stands for [(false, err)]. *)
Definition SyncFinalityProviderStatus (w : World) : M bool :=
  do latestBlock <- lift (cc_QueryBestBlock w);
  do fps <- fps_GetAllStoredFinalityProviders;
  sync_fps w (Height latestBlock) fps false.

(** [Start]: [startOnce.Do] runs its function on the first call only, and
    [startErr] is a variable of the call. *)
Definition Start : M unit :=
  λ a, if startOnce a then (a, Ok tt)
       else
         (exec log LInfo "Starting FinalityProviderApp";
          exec (λ a, (set_wg (wg a + 4) a, Ok tt));
          exec effect (EGo syncChainFpStatusLoop_);
          exec effect (EGo eventLoop_);
          exec effect (EGo registrationLoop_);
          effect (EGo metricsUpdateLoop_)) (set_startOnce true a).

(** The manager stops its instances unless it reports an error. *)
Definition fpManager_Stop (w : World) : M unit :=
  λ a, match fpm_Stop w with
       | Some e => (a, Err e)
       | None => (set_running ∅ a, Ok tt)
       end.

(** [Stop]: [stopOnce.Do] runs its function on the first call only, and
    [stopErr] is a variable of the call. *)
Definition Stop (w : World) : M unit :=
  λ a, if stopOnce a then (a, Ok tt)
       else
         (exec log LInfo "Stopping FinalityProviderApp";
          exec log LDebug "Stopping submission loop";
          exec (λ a, (emit ECloseQuit (set_quit true a), Ok tt));
          exec (λ a, (emit EWait (set_wg 0 a), Ok tt));
          exec log LDebug "Stopping finality providers";
          exec fpManager_Stop w;
          exec log LDebug "Stopping EOTS manager";
          exec check (em_Close w);
          log LDebug "FinalityProviderApp successfully stopped")
           (set_stopOnce true a).

Definition UnjailFinalityProvider (w : World) (fpPk : PK) : M string :=
  do _ <- wrapf "failed to get finality provider from db"
            (fps_GetFinalityProvider (MustToBTCPK fpPk));
  do res <- wrapf "failed to send unjail transaction"
              (submit (TxUnjail (MustToBTCPK fpPk))
                 (cc_UnjailFinalityProvider w (MustToBTCPK fpPk)));
  exec wrapf "failed to update finality-provider status after unjailing"
         (fps_SetFpStatus (MustToBTCPK fpPk) INACTIVE);
  exec effect (ERecordFpStatus fpPk INACTIVE);
  exec log LInfo "successfully unjailed finality-provider";
  ret res.

(** What the [select] of [syncChainFpStatusLoop] receives: a tick of the
    ticker, at which the world is as given, or the closing of [quit]. *)
Inductive select_case : Type :=
| Tick (w : World)
| Quit.

Definition wg_Done (a : App) : App := set_wg (Nat.pred (wg a)) a.

(** The [for]/[select] of [syncChainFpStatusLoop] over what it receives.
    The boolean tells whether the function has returned. *)
Fixpoint syncChainFpStatusLoop_select (cases : list select_case) (a : App)
  : App * bool :=
  match cases with
  | [] => (a, false)
  | Tick w :: rest =>
      match SyncFinalityProviderStatus w a with
      | (a', Err e) =>
          syncChainFpStatusLoop_select rest
            (emit (ELog LError "failed to sync finality-provider status") a')
      | (a', Ok fpInstanceStarted) =>
          if fpInstanceStarted then (wg_Done a', true)
          else syncChainFpStatusLoop_select rest a'
      end
  | Quit :: _ =>
      (wg_Done (emit (ELog LInfo "exiting sync FP status loop") a), true)
  end.

Definition syncChainFpStatusLoop (cases : list select_case) (a : App)
  : App * bool :=
  syncChainFpStatusLoop_select cases
    (emit (ELog LInfo "starting sync FP status loop") a).

(** ** The finality-signing loop of an instance *)

Module FpInstance.

Definition heights (bs : list BlockInfo) : list N := Height <$> bs.

Definition max_height (bs : list BlockInfo) : N :=
  foldr N.max 0 (heights bs).

(** Modelled from the spec: a block of a batch is signed when its height
    is above [last_voted_height] and the provider is seen to have voting
    power at that height (§4.3, step 2); the instance is not among the
    sources. *)
Definition to_sign (w : World) (pk : PK) (lvh : N) (b : BlockInfo) : bool :=
  (lvh <? Height b) &&
  match cc_QueryFinalityProviderVotingPower w pk (Height b) with
  | Ok vp => 0 <? vp
  | Err _ => false
  end.

(** Modelled from the spec: for every block that is signed the proof of
    its public randomness is loaded, and its absence is a critical error;
    then the EOTS manager signs (§4.3, step 2). *)
Fixpoint sign_all (w : World) (pk : PK) (chainID : string) (bs : list BlockInfo)
  : result (list (bytes * bytes)) :=
  match bs with
  | [] => Ok []
  | b :: rest =>
      match pubrand_GetPubRandProof w pk chainID (Height b) with
      | None => Err (Errorf "the public randomness proof is missing")
      | Some proof =>
          match em_SignEOTS w pk chainID (Hash b) (Height b) with
          | Err e => Err e
          | Ok sig =>
              match sign_all w pk chainID rest with
              | Ok l => Ok ((proof, sig) :: l)
              | Err e => Err e
              end
          end
      end
  end.

(** Modelled from the spec: a retriable error is retried up to
    [max_retries] times and is a critical error beyond that (§4.3,
    step 5). *)
Fixpoint submit_with_retry (w : World) (pk : PK) (batch : list BlockInfo)
    (attempt retries : nat) : SubmitVerdict :=
  match cc_SubmitBatchFinalitySigs w pk batch attempt with
  | Retriable e =>
      match retries with
      | O => Permanent (Wrapf "the maximum number of retries is reached" e)
      | S r => submit_with_retry w pk batch (S attempt) r
      end
  | v => v
  end.

Definition fps_SetFpLastVotedHeight (pk : PK) (h : N) : M unit :=
  λ a, match store.SetFpLastVotedHeight (fps a) pk h with
       | Ok m => (set_fps m a, Ok tt)
       | Err e => (a, Err e)
       end.

(** Modelled from the spec: the submission of one batch by the instance
    of [pk] (§4.3, steps 2 to 5), which is not among the sources.  On
    success [last_voted_height] becomes the maximum of the heights of the
    batch; when the chain reports a height of the batch as already voted
    or double-signed, [last_voted_height] is advanced to that height. *)
Definition SubmitBatchFinalitySignatures (w : World) (max_retries : nat)
    (pk : PK) (blocks : list BlockInfo) : M (option TxResponse) :=
  do fp <- fps_GetFinalityProvider pk;
  let batch := List.filter (to_sign w pk (LastVotedHeight fp)) blocks in
  match batch with
  | [] => ret None
  | _ :: _ =>
      do _ <- lift (sign_all w pk (ChainID fp) batch);
      exec effect (ESubmit (TxFinalitySigs pk (heights batch)));
      match submit_with_retry w pk batch 0 max_retries with
      | Submitted tx =>
          exec fps_SetFpLastVotedHeight pk (max_height batch);
          ret (Some tx)
      | AlreadyVoted h | DoubleSign h =>
          exec log LInfo "the height was already voted";
          exec (if bool_decide (h ∈ heights batch)
                then fps_SetFpLastVotedHeight pk h
                else ret tt);
          ret None
      | Retriable e | Permanent e => fail e
      end
  end.

End FpInstance.

(** ** Traces of operations *)

(** The operations on an application, each with the world it meets.  The
    last one is a status write by any other writer of the store, such as the
    status-update loop of an instance. *)
Inductive Op : Type :=
| OpStart
| OpStop (w : World)
| OpCreate (w : World) (req : createFinalityProviderRequest)
| OpRegister (w : World) (fpPkStr : string)
| OpUnjail (w : World) (fpPk : PK)
| OpSync (w : World)
| OpSubmitBatch (w : World) (max_retries : nat) (pk : PK) (blocks : list BlockInfo)
| OpSetFpStatus (pk : PK) (s : FinalityProviderStatus).

Definition step (a : App) (op : Op) : App :=
  match op with
  | OpStart => (Start a).1
  | OpStop w => (Stop w a).1
  | OpCreate w req => (CreateFinalityProvider w req a).1
  | OpRegister w fpPkStr => (RegisterFinalityProvider w fpPkStr a).1
  | OpUnjail w fpPk => (UnjailFinalityProvider w fpPk a).1
  | OpSync w => (SyncFinalityProviderStatus w a).1
  | OpSubmitBatch w n pk blocks =>
      (FpInstance.SubmitBatchFinalitySignatures w n pk blocks a).1
  | OpSetFpStatus pk s => (fps_SetFpStatus pk s a).1
  end.

Definition run (ops : list Op) (a : App) : App := foldl step a ops.

(** The status and the last voted height of a stored provider. *)
Definition status_of (a : App) (pk : PK) : option FinalityProviderStatus :=
  Status <$> fps a !! pk.

Definition last_voted_height (a : App) (pk : PK) : option N :=
  LastVotedHeight <$> fps a !! pk.

(** ** A world for examples

    Nothing fails, nobody has voting power, the codecs are trivial, and the
    signature of a hash is the hash. *)
Definition quiet : World :=
  {| cc_QueryBestBlock := Ok {| Height := 100; Hash := [] |};
     cc_QueryFinalityProviderVotingPower := λ _ _, Ok 0;
     cc_RegisterFinalityProvider := λ _ _ _ _, Ok "0xAA";
     cc_UnjailFinalityProvider := λ _, Ok "0xDE";
     cc_SubmitBatchFinalitySigs := λ _ _ _, Submitted "0xBB";
     em_SignSchnorrSig := λ pk h _, Ok h;
     em_SignEOTS := λ _ _ msg _, Ok msg;
     em_Close := None;
     fpm_StartFinalityProvider := λ _ _, None;
     fpm_Stop := None;
     kr_NewChainKeyringControllerWithKeyring := λ _, None;
     kr_Address := λ _ _, Ok [];
     pubrand_GetPubRandProof := λ _ _ _, Some [];
     tmhash_Sum := λ b, b;
     schnorr_Verify := λ _ h sig, bool_decide (sig = h);
     NewBIP340PubKeyFromHex := λ s, Ok (N.of_nat (String.length s));
     NewBIP340Signature := λ b, Ok b;
     AccAddressFromBech32 := λ _, Ok [];
     AccAddress_String := λ _, "bbn1";
     pop_Marshal := λ p, Ok (BtcSig p);
     description_Marshal := λ _, Ok [] |}.

Definition with_cc_voting_power (f : PK → N → result N) (w : World) : World :=
  {| cc_QueryBestBlock := cc_QueryBestBlock w;
     cc_QueryFinalityProviderVotingPower := f;
     cc_RegisterFinalityProvider := cc_RegisterFinalityProvider w;
     cc_UnjailFinalityProvider := cc_UnjailFinalityProvider w;
     cc_SubmitBatchFinalitySigs := cc_SubmitBatchFinalitySigs w;
     em_SignSchnorrSig := em_SignSchnorrSig w;
     em_SignEOTS := em_SignEOTS w;
     em_Close := em_Close w;
     fpm_StartFinalityProvider := fpm_StartFinalityProvider w;
     fpm_Stop := fpm_Stop w;
     kr_NewChainKeyringControllerWithKeyring := kr_NewChainKeyringControllerWithKeyring w;
     kr_Address := kr_Address w;
     pubrand_GetPubRandProof := pubrand_GetPubRandProof w;
     tmhash_Sum := tmhash_Sum w;
     schnorr_Verify := schnorr_Verify w;
     NewBIP340PubKeyFromHex := NewBIP340PubKeyFromHex w;
     NewBIP340Signature := NewBIP340Signature w;
     AccAddressFromBech32 := AccAddressFromBech32 w;
     AccAddress_String := AccAddress_String w;
     pop_Marshal := pop_Marshal w;
     description_Marshal := description_Marshal w |}.

Definition with_voting_power (vp : N) : World → World :=
  with_cc_voting_power (λ _ _, Ok vp).

(** The chain does not answer the voting-power query. *)
Definition unanswered : World → World :=
  with_cc_voting_power (λ _ _, Err (Errorf "rpc error")).

(** The manager answers [start] to a start and [stop] to a stop. *)
Definition with_manager (start : PK → string → option error) (stop : option error)
    (w : World) : World :=
  {| cc_QueryBestBlock := cc_QueryBestBlock w;
     cc_QueryFinalityProviderVotingPower := cc_QueryFinalityProviderVotingPower w;
     cc_RegisterFinalityProvider := cc_RegisterFinalityProvider w;
     cc_UnjailFinalityProvider := cc_UnjailFinalityProvider w;
     cc_SubmitBatchFinalitySigs := cc_SubmitBatchFinalitySigs w;
     em_SignSchnorrSig := em_SignSchnorrSig w;
     em_SignEOTS := em_SignEOTS w;
     em_Close := em_Close w;
     fpm_StartFinalityProvider := start;
     fpm_Stop := stop;
     kr_NewChainKeyringControllerWithKeyring := kr_NewChainKeyringControllerWithKeyring w;
     kr_Address := kr_Address w;
     pubrand_GetPubRandProof := pubrand_GetPubRandProof w;
     tmhash_Sum := tmhash_Sum w;
     schnorr_Verify := schnorr_Verify w;
     NewBIP340PubKeyFromHex := NewBIP340PubKeyFromHex w;
     NewBIP340Signature := NewBIP340Signature w;
     AccAddressFromBech32 := AccAddressFromBech32 w;
     AccAddress_String := AccAddress_String w;
     pop_Marshal := pop_Marshal w;
     description_Marshal := description_Marshal w |}.

Definition no_description : Description :=
  {| Moniker := "fp"; Identity := ""; Website := ""; SecurityContact := "";
     Details := "" |}.

Definition a_provider (pk : PK) (s : FinalityProviderStatus) : StoredFinalityProvider :=
  {| FPAddr := "bbn1"; BtcPk := pk; Descr := no_description; Commission := 0%Z;
     ChainID := "chain-test"; KeyName := "key"; Pop := [];
     LastVotedHeight := 0; Status := s |}.

Definition app_with (pk : PK) (s : FinalityProviderStatus) : App :=
  set_fps {[pk := a_provider pk s]} (Start NewFinalityProviderApp).1.

Definition a_request (pk : PK) : createFinalityProviderRequest :=
  {| req_keyName := "key"; req_chainID := "chain-test"; req_passPhrase := "";
     req_hdPath := ""; req_eotsPk := Some pk; req_description := no_description;
     req_commission := 0%Z |}.

(** ** [testutil/datagen.go] *)

Module testutil.

(** [*rand.Rand]: the methods of the generator that the helpers call, as
    functions of its state.  [Read r n] is [r.Read(p)] for a slice [p] of
    length [n], [Int63 r] is [r.Int63()], and [Intn r n] is [r.Intn(n)],
    which [datagen.RandomInt] of the [babylon] package converts to
    [uint64]. *)
Record Rand (R : Type) : Type := {
  Read : R → nat → bytes * R;
  Int63 : R → N * R;
  Intn : R → N → N * R
}.
Arguments Read {R} _ _ _.
Arguments Int63 {R} _ _.
Arguments Intn {R} _ _ _.

(** The slice is as long as asked and is filled by one [Read]; the failure
    of an allocation is not part of the model. *)
Definition GenRandomByteArray {R} (rand : Rand R) (r : R) (length : N) : bytes * R :=
  Read rand r (N.to_nat length).

(** [encoding/hex]: the table of [hex.EncodeToString] and its two digits
    for a byte, [hextable[v>>4]] and [hextable[v&0x0f]]. *)
Definition hextable : string := "0123456789abcdef".

Definition hex_digit (n : N) : Ascii.ascii :=
  match String.get (N.to_nat n) hextable with
  | Some c => c
  | None => Ascii.Ascii false false false false true true false false
  end.

Fixpoint hex_EncodeToString (src : bytes) : string :=
  match src with
  | [] => ""
  | v :: rest =>
      String (hex_digit (N.shiftr (Byte.to_N v) 4))
        (String (hex_digit (N.land (Byte.to_N v) 15)) (hex_EncodeToString rest))
  end.

Definition GenRandomHexStr {R} (rand : Rand R) (r : R) (length : N) : string * R :=
  let '(randBytes, r) := GenRandomByteArray rand r length in
  (hex_EncodeToString randBytes, r).

(** The loop of [AddRandomSeedsToFuzzer]: [idx] runs from its value up to
    [num], and every turn adds one seed to the corpus of the fuzzer.  The
    fuel is the number of turns that may still be taken. *)
Fixpoint add_seeds {R} (rand : Rand R) (fuel : nat) (idx num : N) (r : R)
    (corpus : list N) : list N * R :=
  match fuel with
  | O => (corpus, r)
  | S fuel =>
      if idx <? num then
        let '(seed, r) := Int63 rand r in
        add_seeds rand fuel (idx + 1) num r (corpus ++ [seed])
      else (corpus, r)
  end.

(** [AddRandomSeedsToFuzzer]; [r] is the generator seeded from the clock,
    and [num] turns are enough for a loop that counts up to [num]. *)
Definition AddRandomSeedsToFuzzer {R} (rand : Rand R) (r : R) (corpus : list N)
    (num : N) : list N * R :=
  add_seeds rand (N.to_nat num) 0 num r corpus.

(** [sdkmath.LegacyNewDecWithPrec(i, prec)]: [i] times 10^-prec, as a count
    of 10^-18 units. *)
Definition LegacyNewDecWithPrec (i : Z) (prec : Z) : Z := (i * 10 ^ (18 - prec))%Z.

(** The conversion [int64(u)] of a [uint64]. *)
Definition to_int64 (u : N) : Z :=
  if u <? 2 ^ 63 then Z.of_N u else (Z.of_N u - 2 ^ 64)%Z.

(** [datagen.RandomInt(r, 41)] is [uint64(r.Intn(41))]; the sum is taken in
    [uint64]. *)
Definition GenValidSlashingRate {R} (rand : Rand R) (r : R) : Z * R :=
  let '(x, r) := Intn rand r 41 in
  (LegacyNewDecWithPrec (to_int64 ((x + 10) mod 2 ^ 64)) 2, r).

(** The loop of [GenBlocks] over the [uint64] counter [i], which wraps
    around at 2^64; the result is [None] when the fuel does not suffice for
    the loop to end.  The hash comes from [datagen.GenRandomByteArray] of
    the [babylon] package, read as the function of the same name here. *)
Fixpoint GenBlocks_loop {R} (rand : Rand R) (fuel : nat) (r : R) (i endHeight : N)
    (blocks : list BlockInfo) : option (list BlockInfo * R) :=
  match fuel with
  | O => None
  | S fuel =>
      if i <=? endHeight then
        let '(hash, r) := GenRandomByteArray rand r 32 in
        let b := {| Height := i; Hash := hash |} in
        GenBlocks_loop rand fuel r ((i + 1) mod 2 ^ 64) endHeight (blocks ++ [b])
      else Some (blocks, r)
  end.

Definition GenBlocks {R} (rand : Rand R) (fuel : nat) (r : R)
    (startHeight endHeight : N) : option (list BlockInfo * R) :=
  GenBlocks_loop rand fuel r startHeight endHeight [].

(** What [math/rand] promises of the methods: [Read] fills the whole
    slice, [Int63] is a non-negative 63-bit number, and [Intn n] is below
    [n]. *)
Definition lawful {R} (rand : Rand R) : Prop :=
  (∀ r n, length (Read rand r n).1 = n) ∧
  (∀ r, (Int63 rand r).1 < 2 ^ 63) ∧
  (∀ r n, 0 < n → (Intn rand r n).1 < n).

(** A generator for examples: a counter, whose bytes and numbers are the
    successive values of the counter. *)
Fixpoint counting_bytes (n : nat) (k : N) : bytes :=
  match n with
  | O => []
  | S n =>
      match Byte.of_N (k mod 256) with
      | Some b => b :: counting_bytes n (k + 1)
      | None => Byte.x00 :: counting_bytes n (k + 1)
      end
  end.

Definition counter : Rand N :=
  {| Read := λ k n, (counting_bytes n k, k + N.of_nat n);
     Int63 := λ k, (k mod 2 ^ 63, k + 1);
     Intn := λ k n, (k mod n, k + 1) |}.

(** The heights from [i], [n] of them. *)
Definition heights_from (i : N) (n : nat) : list N :=
  (λ k, i + N.of_nat k) <$> seq 0 n.

End testutil.

(** ** The vocabulary of the properties *)

(** How the store may change: [evolves m m'] says that every provider of [m]
    is still in [m'], is still SLASHED if it was, and has not lost voted
    height. *)
Definition evolves (m m' : gmap PK StoredFinalityProvider) : Prop :=
  ∀ pk fp, m !! pk = Some fp →
    ∃ fp', m' !! pk = Some fp' ∧
           (Status fp = SLASHED → Status fp' = SLASHED) ∧
           LastVotedHeight fp ≤ LastVotedHeight fp'.

(** A computation is [stable] when the store evolves across it. *)
Definition stable {A} (m : M A) : Prop :=
  ∀ a, evolves (fps a) (fps (m a).1).

(** The effects of a registration that is answered with success. *)
Definition registered_effects (pk : PK) (popBytes : bytes) (commission : Z)
    (desBytes : bytes) (resp : RegisterFinalityProviderResponse) : list Effect :=
  [ ESubmit (TxRegister pk popBytes commission desBytes);
    ELog LInfo "successfully registered finality-provider on babylon";
    EStatusWrite pk REGISTERED;
    ERecordFpStatus pk REGISTERED;
    EReplyRegistered resp ].

(** Modelled from the spec: the verification of a proof of possession,
    which is in the [babylon] package: the signature is read as BIP-340 and
    verified under the x-only key against the SHA-256 of the address
    bytes (§6). *)
Definition PoP_Verify (w : World) (fpAddr : bytes) (pk : PK)
    (pop : ProofOfPossessionBTC) : bool :=
  match BtcSigType pop with
  | BIP340 => schnorr_Verify w pk (tmhash_Sum w fpAddr) (BtcSig pop)
  | _ => false
  end.

(** What is asked of the EOTS manager: a signature it returns for a key
    and a hash verifies under that key against that hash. *)
Definition signs_soundly (w : World) : Prop :=
  ∀ pk h passphrase sig,
    em_SignSchnorrSig w pk h passphrase = Ok sig → schnorr_Verify w pk h sig = true.

(** The chain answers the voting-power query for this provider. *)
Definition answers (w : World) (height : N) (fp : StoredFinalityProvider) : bool :=
  is_ok (cc_QueryFinalityProviderVotingPower w (BtcPk fp) height).

(** The fields that steer the application: the two [sync.Once], the wait
    group and [quit]. *)
Definition control (a : App) : bool * bool * nat * bool :=
  (startOnce a, stopOnce a, wg a, quit a).

(** [respects R m]: the application before and after [m] are related by
    [R]. *)
Definition respects (R : App → App → Prop) {A} (m : M A) : Prop :=
  ∀ a, R a (m a).1.

(** [emitted P a a']: the history of [a'] is the one of [a] followed by
    effects that all satisfy [P]. *)
Definition emitted (P : Effect → Prop) (a a' : App) : Prop :=
  ∃ l, history a' = history a ++ l ∧ Forall P l.

(** The effects a status sync may have: the log of a status change, and the
    status write itself. *)
Definition sync_effect (e : Effect) : Prop :=
  e = ELog LInfo "Update FP status" ∨ ∃ pk s, e = EStatusWrite pk s.

(** What a status sync does to the application at most: the control fields
    stay, instances are only added, and the effects are those of a sync. *)
Definition sync_rel (a a' : App) : Prop :=
  control a' = control a ∧ running a ⊆ running a' ∧ emitted sync_effect a a'.

(** The effect is the spawning of a loop. *)
Definition is_go (e : Effect) : bool :=
  match e with EGo _ => true | _ => false end.

(** The number of loops spawned so far. *)
Definition spawned (a : App) : nat := length (List.filter is_go (history a)).

(** What every operation but [Start] does to the application at most:
    [startOnce] stays, [quit] stays closed once closed, [stopOnce] stays
    unless [quit] is closed, and no loop is spawned. *)
Definition calm (a a' : App) : Prop :=
  startOnce a' = startOnce a ∧ (quit a = true → quit a' = true) ∧
  (stopOnce a' = stopOnce a ∨ quit a' = true) ∧
  emitted (λ e, is_go e = false) a a'.

(** Every stored record sits under its own public key. *)
Definition keyed (m : gmap PK StoredFinalityProvider) : Prop :=
  ∀ pk fp, m !! pk = Some fp → BtcPk fp = pk.

(** The frame of a status update: the instances stay, and so does every
    record but the one of the provider. *)
Definition update_frame (k : PK) (a a' : App) : Prop :=
  running a' = running a ∧ ∀ pk, pk ≠ k → fps a' !! pk = fps a !! pk.


(** The chain is down at every tick: the cases are ticks at which
    [QueryBestBlock] fails. *)
Definition chain_down (cases : list select_case) : Prop :=
  Forall (λ c, ∃ w e, c = Tick w ∧ cc_QueryBestBlock w = Err e) cases.

(** A world in which the chain does not answer [QueryBestBlock]. *)
Definition chain_is_down : World :=
  {| cc_QueryBestBlock := Err (Errorf "rpc error");
     cc_QueryFinalityProviderVotingPower := cc_QueryFinalityProviderVotingPower quiet;
     cc_RegisterFinalityProvider := cc_RegisterFinalityProvider quiet;
     cc_UnjailFinalityProvider := cc_UnjailFinalityProvider quiet;
     cc_SubmitBatchFinalitySigs := cc_SubmitBatchFinalitySigs quiet;
     em_SignSchnorrSig := em_SignSchnorrSig quiet;
     em_SignEOTS := em_SignEOTS quiet;
     em_Close := em_Close quiet;
     fpm_StartFinalityProvider := fpm_StartFinalityProvider quiet;
     fpm_Stop := fpm_Stop quiet;
     kr_NewChainKeyringControllerWithKeyring :=
       kr_NewChainKeyringControllerWithKeyring quiet;
     kr_Address := kr_Address quiet;
     pubrand_GetPubRandProof := pubrand_GetPubRandProof quiet;
     tmhash_Sum := tmhash_Sum quiet;
     schnorr_Verify := schnorr_Verify quiet;
     NewBIP340PubKeyFromHex := NewBIP340PubKeyFromHex quiet;
     NewBIP340Signature := NewBIP340Signature quiet;
     AccAddressFromBech32 := AccAddressFromBech32 quiet;
     AccAddress_String := AccAddress_String quiet;
     pop_Marshal := pop_Marshal quiet;
     description_Marshal := description_Marshal quiet |}.

(** The record a creation stores for a request, given the address of the
    key and the signature of the EOTS manager. *)
Definition created_record (w : World) (req : createFinalityProviderRequest)
    (pk : PK) (fpAddr sig : bytes) : StoredFinalityProvider :=
  {| FPAddr := AccAddress_String w fpAddr; BtcPk := pk;
     Descr := req_description req; Commission := req_commission req;
     ChainID := req_chainID req; KeyName := req_keyName req; Pop := sig;
     LastVotedHeight := 0; Status := CREATED |}.

(** The effect is a submission to the chain. *)
Definition is_submit (e : Effect) : bool :=
  match e with ESubmit _ => true | _ => false end.

(** The byte that two hex digits stand for, [0-9a-f] being worth 0 to 15. *)
Definition unhex (hi lo : Ascii.ascii) : option Byte.byte :=
  let value c :=
    let n := Ascii.N_of_ascii c in
    if (48 <=? n) && (n <=? 57) then n - 48 else n - 87 in
  Byte.of_N (16 * value hi + value lo).

(** * Properties *)

(** The scenarios of the specification, run on the embedding. *)

Example status_under_zero_voting_power :
  status_of (run [OpSync quiet] (app_with 7 ACTIVE)) 7 = Some INACTIVE ∧
  status_of (run [OpSync (with_voting_power 1 quiet)]
               (app_with 7 INACTIVE)) 7 = Some ACTIVE.
Proof. split; vm_compute; reflexivity. Qed.

Example jail_then_unjail :
  (UnjailFinalityProvider quiet 7 (app_with 7 JAILED)).2 = Ok "0xDE" ∧
  status_of (run [OpUnjail quiet 7] (app_with 7 JAILED)) 7 = Some INACTIVE ∧
  status_of (run [OpUnjail quiet 7; OpSync (with_voting_power 1 quiet)]
               (app_with 7 JAILED)) 7 = Some ACTIVE.
Proof. repeat split; vm_compute; reflexivity. Qed.

Example slashing_is_terminal :
  status_of (run [OpSync (with_voting_power 1 quiet)] (app_with 7 SLASHED)) 7
  = Some SLASHED.
Proof. vm_compute; reflexivity. Qed.

Example submit_finality_sigs :
  last_voted_height
    (run [OpSubmitBatch (with_voting_power 1 quiet) 3 7
            [{| Height := 102; Hash := [] |}]] (app_with 7 REGISTERED)) 7
  = Some 102.
Proof. vm_compute; reflexivity. Qed.



Lemma evolves_refl m : evolves m m.
Proof. intros pk fp H. exists fp. split; [done|]. split; [done|lia]. Qed.

Lemma evolves_trans m1 m2 m3 : evolves m1 m2 → evolves m2 m3 → evolves m1 m3.
Proof.
  intros H12 H23 pk fp H1.
  destruct (H12 pk fp H1) as (fp2 & H2 & Hs2 & Hh2).
  destruct (H23 pk fp2 H2) as (fp3 & H3 & Hs3 & Hh3).
  exists fp3. split; [done|]. split; [tauto|lia].
Qed.

Lemma evolves_insert m pk fp fp' :
  m !! pk = Some fp →
  (Status fp = SLASHED → Status fp' = SLASHED) →
  LastVotedHeight fp ≤ LastVotedHeight fp' →
  evolves m (<[pk := fp']> m).
Proof.
  intros Hpk Hs Hh pk0 fp0 H0.
  destruct (decide (pk = pk0)) as [->|Hne].
  - rewrite lookup_insert_eq. exists fp'. split; [done|].
    rewrite Hpk in H0. injection H0 as <-. done.
  - rewrite lookup_insert_ne by done. exists fp0.
    split; [done|]. split; [done|lia].
Qed.

Lemma evolves_insert_fresh m pk fp' :
  m !! pk = None → evolves m (<[pk := fp']> m).
Proof.
  intros Hpk pk0 fp0 H0.
  destruct (decide (pk = pk0)) as [->|Hne]; [congruence|].
  rewrite lookup_insert_ne by done. exists fp0.
  split; [done|]. split; [done|lia].
Qed.

Lemma stable_bind {A B} (m : M A) (k : A → M B) :
  stable m → (∀ x, stable (k x)) → stable (bind m k).
Proof.
  intros Hm Hk a. unfold bind. specialize (Hm a).
  destruct (m a) as [a' [x|e]]; simpl in *.
  - eapply evolves_trans; [exact Hm|apply Hk].
  - exact Hm.
Qed.

Lemma stable_wrapf {A} msg (m : M A) : stable m → stable (wrapf msg m).
Proof.
  intros Hm a. unfold wrapf. specialize (Hm a).
  destruct (m a) as [a' [x|e]]; exact Hm.
Qed.

Lemma stable_ret {A} (x : A) : stable (ret x).
Proof. intros a. apply evolves_refl. Qed.

Lemma stable_fail {A} e : stable (@fail A e).
Proof. intros a. apply evolves_refl. Qed.

Lemma stable_lift {A} (r : result A) : stable (lift r).
Proof. intros a. apply evolves_refl. Qed.

Lemma stable_check o : stable (check o).
Proof. intros a. unfold check. destruct o; apply evolves_refl. Qed.

Lemma stable_effect e : stable (effect e).
Proof. intros a. apply evolves_refl. Qed.

Lemma stable_log l msg : stable (log l msg).
Proof. apply stable_effect. Qed.

Lemma stable_submit {A} tx (r : result A) : stable (submit tx r).
Proof. intros a. apply evolves_refl. Qed.

Lemma stable_fps_GetFinalityProvider pk : stable (fps_GetFinalityProvider pk).
Proof. intros a. apply evolves_refl. Qed.

Lemma stable_fps_GetAllStoredFinalityProviders :
  stable fps_GetAllStoredFinalityProviders.
Proof. intros a. apply evolves_refl. Qed.

Lemma stable_IsFinalityProviderRunning pk : stable (IsFinalityProviderRunning pk).
Proof. intros a. apply evolves_refl. Qed.

Lemma stable_StartFinalityProvider w pk pass :
  stable (StartFinalityProvider w pk pass).
Proof.
  intros a. unfold StartFinalityProvider.
  destruct (fpm_StartFinalityProvider w pk pass); apply evolves_refl.
Qed.

Lemma stable_fpManager_Stop w : stable (fpManager_Stop w).
Proof.
  intros a. unfold fpManager_Stop. destruct (fpm_Stop w); apply evolves_refl.
Qed.

(** The write of a status keeps a slashed provider slashed: this is where
    the refusal of the store is used. *)
Lemma SetFpStatus_evolves m pk s m' :
  store.SetFpStatus m pk s = Ok m' → evolves m m'.
Proof.
  unfold store.SetFpStatus. intros H.
  destruct (m !! pk) as [fp|] eqn:Hpk; [|discriminate].
  case_bool_decide as Hd; [discriminate|]. injection H as <-.
  apply (evolves_insert _ _ fp); [done| |simpl; lia].
  simpl. intros Hs. destruct (decide (s = SLASHED)); [done|tauto].
Qed.

Lemma stable_fps_SetFpStatus pk s : stable (fps_SetFpStatus pk s).
Proof.
  intros a. unfold fps_SetFpStatus.
  destruct (store.SetFpStatus (fps a) pk s) as [m|e] eqn:H; simpl.
  - by apply SetFpStatus_evolves in H.
  - apply evolves_refl.
Qed.

Lemma stable_fps_CreateFinalityProvider addr pk d c k ch sig :
  stable (fps_CreateFinalityProvider addr pk d c k ch sig).
Proof.
  intros a. unfold fps_CreateFinalityProvider, store.CreateFinalityProvider.
  destruct (fps a !! pk) eqn:Hpk; simpl.
  - apply evolves_refl.
  - by apply evolves_insert_fresh.
Qed.

Create HintDb stable.
#[local] Hint Resolve stable_bind stable_wrapf stable_ret stable_fail stable_lift
  stable_check stable_effect stable_log stable_submit
  stable_fps_GetFinalityProvider stable_fps_GetAllStoredFinalityProviders
  stable_IsFinalityProviderRunning stable_StartFinalityProvider
  stable_fpManager_Stop stable_fps_SetFpStatus
  stable_fps_CreateFinalityProvider : stable.

(** Splits a computation along its binds and branches. *)
Ltac stable_step :=
  match goal with
  | |- ∀ _, _ => intro
  | |- stable (bind _ _) => apply stable_bind
  | |- stable (wrapf _ _) => apply stable_wrapf
  | |- stable (if ?b then _ else _) => destruct b
  | |- stable (match ?x with _ => _ end) => destruct x
  | |- stable _ => solve [auto with stable]
  end.
Ltac stable_auto := repeat stable_step.

Lemma stable_fps_UpdateFpStatusFromVotingPower vp fp :
  stable (fps_UpdateFpStatusFromVotingPower vp fp).
Proof. unfold fps_UpdateFpStatusFromVotingPower. stable_auto. Qed.

Lemma stable_CreatePop w addr pk pass : stable (CreatePop w addr pk pass).
Proof. unfold CreatePop. stable_auto. Qed.

#[local] Hint Resolve stable_fps_UpdateFpStatusFromVotingPower stable_CreatePop
  : stable.

Lemma stable_handleCreateFinalityProviderRequest w req :
  stable (handleCreateFinalityProviderRequest w req).
Proof. unfold handleCreateFinalityProviderRequest. stable_auto. Qed.

Lemma stable_UnjailFinalityProvider w pk : stable (UnjailFinalityProvider w pk).
Proof. unfold UnjailFinalityProvider. stable_auto. Qed.

Lemma stable_sync_fps w h l r : stable (sync_fps w h l r).
Proof.
  revert r. induction l as [|fp rest IH]; intros r; simpl.
  - auto with stable.
  - destruct (cc_QueryFinalityProviderVotingPower w (BtcPk fp) h); [|apply IH].
    stable_auto; apply IH.
Qed.

Lemma stable_SyncFinalityProviderStatus w : stable (SyncFinalityProviderStatus w).
Proof.
  unfold SyncFinalityProviderStatus. stable_auto. apply stable_sync_fps.
Qed.

Lemma stable_Start : stable Start.
Proof.
  intros a. unfold Start. destruct (startOnce a); apply evolves_refl.
Qed.

Lemma stable_Stop w : stable (Stop w).
Proof.
  intros a. unfold Stop. destruct (stopOnce a); [apply evolves_refl|].
  change (fps a) with (fps (set_stopOnce true a)).
  generalize (set_stopOnce true a). change (stable (
    exec log LInfo "Stopping FinalityProviderApp";
    exec log LDebug "Stopping submission loop";
    exec (λ a, (emit ECloseQuit (set_quit true a), Ok tt));
    exec (λ a, (emit EWait (set_wg 0 a), Ok tt));
    exec log LDebug "Stopping finality providers";
    exec fpManager_Stop w;
    exec log LDebug "Stopping EOTS manager";
    exec check (em_Close w);
    log LDebug "FinalityProviderApp successfully stopped")).
  stable_auto; intros a'; apply evolves_refl.
Qed.

Lemma evolves_CreateFinalityProvider w req a :
  evolves (fps a) (fps (CreateFinalityProvider w req a).1).
Proof.
  unfold CreateFinalityProvider.
  destruct (loops_running a); [|apply evolves_refl].
  pose proof (stable_handleCreateFinalityProviderRequest w req a) as H.
  unfold eventLoop_create, bind, ret.
  destruct (handleCreateFinalityProviderRequest w req a) as [a' [x|e]]; exact H.
Qed.

Lemma stable_RegisterFinalityProvider_request w s :
  stable (RegisterFinalityProvider_request w s).
Proof. unfold RegisterFinalityProvider_request. stable_auto. Qed.

Lemma stable_registrationLoop_request w req :
  stable (reply_error (registrationLoop_request w req)).
Proof.
  assert (stable (registrationLoop_request w req)) as H.
  { unfold registrationLoop_request. stable_auto.
    intros a; unfold submit; simpl.
    destruct (cc_RegisterFinalityProvider w _ _ _ _); apply evolves_refl. }
  intros a. unfold reply_error. specialize (H a).
  destruct (registrationLoop_request w req a) as [a' [x|e]]; exact H.
Qed.

Lemma evolves_eventLoop_registered ev a :
  evolves (fps a) (fps (eventLoop_registered ev a).1).
Proof.
  unfold eventLoop_registered.
  pose proof (stable_fps_SetFpStatus (MustToBTCPK (ev_btcPubKey ev)) REGISTERED a) as H.
  destruct (fps_SetFpStatus _ _ a) as [a' [x|e]]; exact H.
Qed.

Lemma evolves_RegisterFinalityProvider w s a :
  evolves (fps a) (fps (RegisterFinalityProvider w s a).1).
Proof.
  unfold RegisterFinalityProvider.
  pose proof (stable_RegisterFinalityProvider_request w s a) as H1.
  destruct (RegisterFinalityProvider_request w s a) as [a1 [req|e]]; [|exact H1].
  simpl in H1. destruct (loops_running a1); [|exact H1].
  pose proof (stable_registrationLoop_request w req a1) as H2.
  destruct (reply_error _ a1) as [a2 [ev|e]]; simpl in H2;
    [|exact (evolves_trans _ _ _ H1 H2)].
  pose proof (evolves_eventLoop_registered ev a2) as H3.
  destruct (eventLoop_registered ev a2) as [a3 [resp|]]; simpl in H3;
    exact (evolves_trans _ _ _ H1 (evolves_trans _ _ _ H2 H3)).
Qed.

(** ** The batch of an instance lies above the last voted height *)

Lemma max_height_ge (bs : list BlockInfo) (b : BlockInfo) :
  b ∈ bs → Height b ≤ FpInstance.max_height bs.
Proof.
  unfold FpInstance.max_height, FpInstance.heights.
  induction bs as [|b' bs IH]; intros Hin.
  - by apply elem_of_nil in Hin.
  - rewrite fmap_cons. simpl.
    apply elem_of_cons in Hin as [->|Hin]; [lia|].
    specialize (IH Hin). lia.
Qed.

Lemma to_sign_above w pk lvh (blocks : list BlockInfo) (b : BlockInfo) :
  b ∈ List.filter (FpInstance.to_sign w pk lvh) blocks → lvh < Height b.
Proof.
  rewrite list_elem_of_In, filter_In. intros [_ H].
  unfold FpInstance.to_sign in H. apply andb_true_iff in H as [H _].
  by apply N.ltb_lt in H.
Qed.

Lemma batch_above w pk lvh (blocks : list BlockInfo) b batch :
  List.filter (FpInstance.to_sign w pk lvh) blocks = b :: batch →
  lvh < FpInstance.max_height (b :: batch).
Proof.
  intros H.
  assert (b ∈ List.filter (FpInstance.to_sign w pk lvh) blocks) as Hb
    by (rewrite H; apply list_elem_of_here).
  apply to_sign_above in Hb.
  pose proof (max_height_ge (b :: batch) b (list_elem_of_here _ _)). lia.
Qed.

Lemma height_of_batch_above w pk lvh (blocks : list BlockInfo) h :
  h ∈ FpInstance.heights (List.filter (FpInstance.to_sign w pk lvh) blocks) →
  lvh < h.
Proof.
  unfold FpInstance.heights. intros Hh.
  apply list_elem_of_fmap in Hh as (b & -> & Hb).
  by apply to_sign_above in Hb.
Qed.

Lemma SetFpLastVotedHeight_evolves m pk fp h :
  m !! pk = Some fp → LastVotedHeight fp ≤ h →
  ∃ m', store.SetFpLastVotedHeight m pk h = Ok m' ∧ evolves m m' ∧
        LastVotedHeight <$> m' !! pk = Some h.
Proof.
  intros Hpk Hh. unfold store.SetFpLastVotedHeight. rewrite Hpk.
  eexists. split; [done|]. split.
  - by apply (evolves_insert _ _ fp).
  - by rewrite lookup_insert_eq.
Qed.

Lemma stable_SubmitBatchFinalitySignatures w n pk blocks :
  stable (FpInstance.SubmitBatchFinalitySignatures w n pk blocks).
Proof.
  intros a. unfold FpInstance.SubmitBatchFinalitySignatures, bind at 1.
  unfold fps_GetFinalityProvider, store.GetFinalityProvider.
  destruct (fps a !! pk) as [fp|] eqn:Hpk; [|apply evolves_refl].
  destruct (List.filter _ blocks) as [|b batch] eqn:Hbatch; [apply evolves_refl|].
  unfold bind at 1, lift.
  destruct (FpInstance.sign_all _ _ _ _); [|apply evolves_refl].
  unfold bind at 1, effect.
  set (a1 := emit _ a). change (fps a) with (fps a1).
  assert (fps a1 !! pk = Some fp) as Hpk1 by done.
  destruct (FpInstance.submit_with_retry _ _ _ _ _) as [tx|h|h|e|e];
    try apply evolves_refl.
  - unfold bind, FpInstance.fps_SetFpLastVotedHeight.
    destruct (SetFpLastVotedHeight_evolves (fps a1) pk fp
                (FpInstance.max_height (b :: batch)) Hpk1) as (m' & -> & Hev & _).
    { apply batch_above in Hbatch. lia. }
    exact Hev.
  - unfold bind at 1, log, effect. unfold bind at 1.
    case_bool_decide as Hin; [|apply evolves_refl].
    rewrite <- Hbatch in Hin. apply height_of_batch_above in Hin.
    unfold FpInstance.fps_SetFpLastVotedHeight.
    destruct (SetFpLastVotedHeight_evolves (fps a1) pk fp h Hpk1)
      as (m' & Hm' & Hev & _); [lia|].
    cbn [fps emit]. rewrite Hm'. exact Hev.
  - unfold bind at 1, log, effect. unfold bind at 1.
    case_bool_decide as Hin; [|apply evolves_refl].
    rewrite <- Hbatch in Hin. apply height_of_batch_above in Hin.
    unfold FpInstance.fps_SetFpLastVotedHeight.
    destruct (SetFpLastVotedHeight_evolves (fps a1) pk fp h Hpk1)
      as (m' & Hm' & Hev & _); [lia|].
    cbn [fps emit]. rewrite Hm'. exact Hev.
Qed.

(** ** Every operation lets the store evolve, and so does every trace *)

Lemma step_evolves a op : evolves (fps a) (fps (step a op)).
Proof.
  destruct op; simpl.
  - apply stable_Start.
  - apply stable_Stop.
  - apply evolves_CreateFinalityProvider.
  - apply evolves_RegisterFinalityProvider.
  - apply stable_UnjailFinalityProvider.
  - apply stable_SyncFinalityProviderStatus.
  - apply stable_SubmitBatchFinalitySignatures.
  - apply stable_fps_SetFpStatus.
Qed.

Lemma run_evolves ops a : evolves (fps a) (fps (run ops a)).
Proof.
  revert a. induction ops as [|op ops IH]; intros a; simpl.
  - apply evolves_refl.
  - eapply evolves_trans; [apply step_evolves|apply IH].
Qed.

(** ** What a creation does *)

(** A creation that succeeds adds one record, in CREATED with voted height
    0, under a key that was free. *)
Lemma handleCreateFinalityProviderRequest_ok w req a a' r :
  handleCreateFinalityProviderRequest w req a = (a', Ok r) →
  ∃ pk fp,
    req_eotsPk req = Some pk ∧ fps a !! pk = None ∧
    fps a' = <[pk := fp]> (fps a) ∧
    BtcPk fp = pk ∧ Status fp = CREATED ∧ LastVotedHeight fp = 0 ∧
    FpInfo r = store.ToFinalityProviderInfo fp ∧
    loops_running a' = loops_running a.
Proof.
  unfold handleCreateFinalityProviderRequest, bind at 1, check.
  destruct (kr_NewChainKeyringControllerWithKeyring w _); [discriminate|].
  unfold bind at 1, wrapf at 1, lift.
  destruct (kr_Address w _ _) as [addr|]; [|discriminate].
  destruct (req_eotsPk req) as [pk|]; [|discriminate].
  unfold bind at 1, wrapf at 1, CreatePop, bind at 1, wrapf at 1, lift.
  destruct (em_SignSchnorrSig w _ _ _) as [sig|]; [|discriminate].
  unfold ret at 1, bind at 1, wrapf at 1, fps_CreateFinalityProvider,
    store.CreateFinalityProvider, MustToBTCPK.
  destruct (fps a !! pk) eqn:Hpk; [discriminate|].
  unfold bind at 1, effect at 1, bind at 1, log, effect at 1, bind at 1,
    fps_GetFinalityProvider, store.GetFinalityProvider.
  cbn [fps emit set_fps]. rewrite lookup_insert_eq. unfold ret.
  intros H. injection H as <- <-.
  eexists pk, _. cbn [fps emit set_fps FpInfo].
  repeat split; done.
Qed.

(** A creation under a key that is taken fails and changes nothing. *)
Lemma handleCreateFinalityProviderRequest_taken w req a pk :
  req_eotsPk req = Some pk → is_Some (fps a !! pk) →
  ∃ e, handleCreateFinalityProviderRequest w req a = (a, Err e).
Proof.
  intros Hreq [fp Hpk].
  unfold handleCreateFinalityProviderRequest, bind at 1, check.
  destruct (kr_NewChainKeyringControllerWithKeyring w _); [by eexists|].
  unfold bind at 1, wrapf at 1, lift.
  destruct (kr_Address w _ _) as [addr|]; [|by eexists].
  rewrite Hreq.
  unfold bind at 1, wrapf at 1, CreatePop, bind at 1, wrapf at 1, lift.
  destruct (em_SignSchnorrSig w _ _ _) as [sig|]; [|by eexists].
  unfold ret at 1, bind at 1, wrapf at 1, fps_CreateFinalityProvider,
    store.CreateFinalityProvider, MustToBTCPK.
  rewrite Hpk. by eexists.
Qed.

(** ** C1 *)

(** C1. SLASHED is terminal: a stored finality provider whose status is
    SLASHED is still stored with status SLASHED after any sequence of
    operations of the application (status syncs whatever voting power the
    chain reports, unjailing, registration, creation, batch submissions,
    start, stop) and of other status writes through the store. *)
Theorem slashed_is_terminal (ops : list Op) (a : App) (pk : PK) :
  status_of a pk = Some SLASHED →
  status_of (run ops a) pk = Some SLASHED.
Proof.
  unfold status_of. intros H.
  destruct (fps a !! pk) as [fp|] eqn:Hpk; [|discriminate].
  injection H as Hs.
  destruct (run_evolves ops a pk fp Hpk) as (fp' & -> & Hs' & _).
  simpl. by rewrite Hs'.
Qed.

Lemma slashed_is_terminal_witness :
  status_of (app_with 7 SLASHED) 7 = Some SLASHED ∧
  status_of (run [OpSync (with_voting_power 1 quiet); OpUnjail quiet 7;
                  OpSetFpStatus 7 ACTIVE; OpRegister quiet "1234567";
                  OpSync (with_voting_power 1 quiet)]
               (app_with 7 SLASHED)) 7 = Some SLASHED.
Proof.
  split; [reflexivity|]. apply slashed_is_terminal. reflexivity.
Defined.

(** ** C2 *)



(** ** C3 *)

(** [UnjailFinalityProvider], case by case. *)
Lemma UnjailFinalityProvider_eq (w : World) (pk : PK) (a : App) :
  UnjailFinalityProvider w pk a =
  match fps a !! pk with
  | None =>
      (a, Err (Wrapf "failed to get finality provider from db"
                 (Errorf "the finality provider is not found")))
  | Some fp =>
      let a1 := emit (ESubmit (TxUnjail pk)) a in
      match cc_UnjailFinalityProvider w pk with
      | Err e => (a1, Err (Wrapf "failed to send unjail transaction" e))
      | Ok tx =>
          if bool_decide (Status fp = SLASHED) then
            (a1, Err (Wrapf "failed to update finality-provider status after unjailing"
                        (Errorf "the finality provider is slashed")))
          else
            (emit (ELog LInfo "successfully unjailed finality-provider")
               (emit (ERecordFpStatus pk INACTIVE)
                  (emit (EStatusWrite pk INACTIVE)
                     (set_fps (<[pk := with_Status INACTIVE fp]> (fps a)) a1))),
             Ok tx)
      end
  end.
Proof.
  unfold UnjailFinalityProvider, bind, wrapf, submit, fps_GetFinalityProvider,
    store.GetFinalityProvider, fps_SetFpStatus, store.SetFpStatus, MustToBTCPK.
  destruct (fps a !! pk) as [fp|] eqn:Hpk; [|reflexivity].
  destruct (cc_UnjailFinalityProvider w pk) as [tx|e]; [|reflexivity].
  cbn [fps emit]. rewrite Hpk.
  destruct (decide (Status fp = SLASHED)) as [Hs|Hs].
  - rewrite (bool_decide_eq_true_2 (_ ∧ _)) by (split; [done|discriminate]).
    by rewrite bool_decide_eq_true_2.
  - rewrite (bool_decide_eq_false_2 (_ ∧ _)) by tauto.
    by rewrite bool_decide_eq_false_2.
Qed.

(** C3 fails for a SLASHED provider whose unjail transaction the chain
    accepts: the store refuses the write, the call returns an error, and
    the status stays SLASHED. *)
Lemma unjail_slashed_counterexample :
  status_of (app_with 7 SLASHED) 7 = Some SLASHED ∧
  cc_UnjailFinalityProvider quiet 7 = Ok "0xDE" ∧
  (UnjailFinalityProvider quiet 7 (app_with 7 SLASHED)).2
    = Err (Wrapf "failed to update finality-provider status after unjailing"
             (Errorf "the finality provider is slashed")) ∧
  status_of (UnjailFinalityProvider quiet 7 (app_with 7 SLASHED)).1 7
    = Some SLASHED.
Proof. repeat split; vm_compute; reflexivity. Qed.

(** C3, as it holds of the code. [UnjailFinalityProvider] looks the provider
    up and fails, with nothing done, when it is not stored. For a stored
    provider it submits an unjail transaction. When the chain refuses it, or
    when the chain accepts it and the store refuses the status write because
    the provider is SLASHED, the call returns an error and the store is as
    before. When the chain accepts it and the provider is not SLASHED, the
    stored status becomes INACTIVE, nothing else in the store changes, and
    the call returns the transaction hash of the chain. *)
Theorem UnjailFinalityProvider_outcome (w : World) (pk : PK) (a : App) :
  match fps a !! pk with
  | None =>
      is_err (UnjailFinalityProvider w pk a).2 = true ∧
      (UnjailFinalityProvider w pk a).1 = a
  | Some fp =>
      history (UnjailFinalityProvider w pk a).1 !! length (history a)
        = Some (ESubmit (TxUnjail pk)) ∧
      match cc_UnjailFinalityProvider w pk with
      | Err e =>
          (UnjailFinalityProvider w pk a).2
            = Err (Wrapf "failed to send unjail transaction" e) ∧
          fps (UnjailFinalityProvider w pk a).1 = fps a
      | Ok tx =>
          if bool_decide (Status fp = SLASHED) then
            is_err (UnjailFinalityProvider w pk a).2 = true ∧
            fps (UnjailFinalityProvider w pk a).1 = fps a
          else
            (UnjailFinalityProvider w pk a).2 = Ok tx ∧
            status_of (UnjailFinalityProvider w pk a).1 pk = Some INACTIVE ∧
            fps (UnjailFinalityProvider w pk a).1
              = <[pk := with_Status INACTIVE fp]> (fps a)
      end
  end.
Proof.
  rewrite UnjailFinalityProvider_eq.
  destruct (fps a !! pk) as [fp|] eqn:Hpk; [|done].
  assert (∀ l : list Effect, (history a ++ ESubmit (TxUnjail pk) :: l)
            !! length (history a) = Some (ESubmit (TxUnjail pk))) as Hat.
  { intros l. rewrite lookup_app_r by lia. by rewrite Nat.sub_diag. }
  destruct (cc_UnjailFinalityProvider w pk) as [tx|e]; cbn.
  - case_bool_decide; cbn.
    + split; [apply (Hat [])|done].
    + split.
      * rewrite <- !app_assoc. apply Hat.
      * unfold status_of. cbn. by rewrite lookup_insert_eq.
  - split; [apply (Hat [])|done].
Qed.

(** ** What a registration does *)

(** A provider that is stored and not in CREATED is refused before any
    request is sent. *)
Lemma RegisterFinalityProvider_not_CREATED w s a pk fp :
  NewBIP340PubKeyFromHex w s = Ok pk → fps a !! pk = Some fp →
  Status fp ≠ CREATED →
  RegisterFinalityProvider w s a
  = (a, Some (Err (Errorf "finality-provider is already registered"))).
Proof.
  intros Hparse Hpk Hs.
  unfold RegisterFinalityProvider, RegisterFinalityProvider_request, bind, lift,
    fps_GetFinalityProvider, store.GetFinalityProvider, MustToBTCPK.
  rewrite Hparse, Hpk. by rewrite bool_decide_eq_true_2.
Qed.

(** A registration changes the store only when it is answered with
    success, and then as follows. *)
Lemma RegisterFinalityProvider_cases w s a a' r :
  RegisterFinalityProvider w s a = (a', r) →
  match r with
  | Some (Ok resp) =>
      ∃ pk fp fp0 popBytes desBytes,
        NewBIP340PubKeyFromHex w s = Ok pk ∧
        fps a !! pk = Some fp ∧ Status fp = CREATED ∧
        btcPubKey resp = BtcPk fp ∧
        cc_RegisterFinalityProvider w (BtcPk fp) popBytes (Commission fp) desBytes
          = Ok (TxHash resp) ∧
        fps a !! BtcPk fp = Some fp0 ∧
        fps a' = <[BtcPk fp := with_Status REGISTERED fp0]> (fps a) ∧
        history a' = history a ++
          registered_effects (BtcPk fp) popBytes (Commission fp) desBytes resp
  | _ => fps a' = fps a
  end.
Proof.
  unfold RegisterFinalityProvider, RegisterFinalityProvider_request, bind, lift,
    fps_GetFinalityProvider, store.GetFinalityProvider, MustToBTCPK, ret, fail.
  destruct (NewBIP340PubKeyFromHex w s) as [pk|] eqn:Hparse;
    [|intros H; by injection H as <- <-].
  destruct (fps a !! pk) as [fp|] eqn:Hpk; [|intros H; by injection H as <- <-].
  case_bool_decide as Hs; [intros H; by injection H as <- <-|].
  destruct (NewBIP340Signature w (Pop fp)) as [btcSig|];
    [|intros H; by injection H as <- <-].
  destruct (AccAddressFromBech32 w (FPAddr fp)) as [fpAddr|];
    [|intros H; by injection H as <- <-].
  destruct (loops_running a); [|intros H; by injection H as <- <-].
  unfold reply_error, registrationLoop_request, bind, lift, submit, log, effect,
    ret, NewBIP340PubKeyFromBTCPK, MustToBTCPK.
  cbn [rr_pop rr_description rr_btcPubKey rr_commission rr_fpAddr].
  destruct (pop_Marshal w _) as [popBytes|];
    [|intros H; by injection H as <- <-].
  destruct (description_Marshal w _) as [desBytes|];
    [|intros H; by injection H as <- <-].
  destruct (cc_RegisterFinalityProvider w _ _ _ _) as [tx|] eqn:Htx;
    [|intros H; by injection H as <- <-].
  unfold eventLoop_registered, fps_SetFpStatus, store.SetFpStatus, MustToBTCPK.
  cbn [fps emit ev_btcPubKey ev_bbnAddress ev_txHash].
  destruct (fps a !! BtcPk fp) as [fp0|] eqn:Hpk0;
    [|intros H; by injection H as <- <-].
  case_bool_decide as Hs0; [intros H; by injection H as <- <-|].
  intros H. injection H as <- <-.
  exists pk, fp, fp0, popBytes, desBytes.
  cbn [fps emit set_fps history btcPubKey TxHash].
  repeat split; try done.
  unfold registered_effects. by rewrite <- !app_assoc.
Qed.

(** ** C4 *)

(** C4 fails outside the registration path: a sync with zero voting power
    takes a CREATED provider to REGISTERED, and no transaction is
    submitted. *)
Lemma sync_registers_without_transaction :
  status_of (app_with 7 CREATED) 7 = Some CREATED ∧
  status_of (SyncFinalityProviderStatus quiet (app_with 7 CREATED)).1 7
    = Some REGISTERED ∧
  history (SyncFinalityProviderStatus quiet (app_with 7 CREATED)).1
    = history (app_with 7 CREATED) ++
      [EStatusWrite 7 REGISTERED; ELog LInfo "Update FP status"].
Proof. repeat split; vm_compute; reflexivity. Qed.

(** C4, as it holds of the code. [RegisterFinalityProvider] registers only
    out of CREATED: for a stored provider whose status is not CREATED it
    returns the error that the provider is already registered and does
    nothing else, so no registration transaction is submitted; and when it
    takes a provider from CREATED to REGISTERED, the caller is answered with
    success, for that provider, with the hash of a registration transaction
    that the chain accepted and that was submitted in this call. (Nothing is
    said of the status sync, which also takes a provider out of CREATED.) *)
Theorem registration_only_out_of_CREATED (w : World) (s : string) (a : App) :
  (∀ pk fp,
     NewBIP340PubKeyFromHex w s = Ok pk → fps a !! pk = Some fp →
     Status fp ≠ CREATED →
     RegisterFinalityProvider w s a
     = (a, Some (Err (Errorf "finality-provider is already registered")))) ∧
  (∀ pk,
     status_of a pk = Some CREATED →
     status_of (RegisterFinalityProvider w s a).1 pk = Some REGISTERED →
     ∃ resp popBytes commission desBytes,
       (RegisterFinalityProvider w s a).2 = Some (Ok resp) ∧
       btcPubKey resp = pk ∧
       cc_RegisterFinalityProvider w pk popBytes commission desBytes
         = Ok (TxHash resp) ∧
       history (RegisterFinalityProvider w s a).1 = history a ++
         registered_effects pk popBytes commission desBytes resp).
Proof.
  split.
  - intros pk fp. apply RegisterFinalityProvider_not_CREATED.
  - intros pk Hbefore Hafter.
    destruct (RegisterFinalityProvider w s a) as [a' r] eqn:Hreg.
    apply RegisterFinalityProvider_cases in Hreg. simpl in *.
    unfold status_of in *.
    destruct r as [[resp|e]|].
    + destruct Hreg as (pk' & fp & fp0 & popBytes & desBytes & _ & _ & _ &
                        Hresp & Htx & _ & Hfps & Hhist).
      destruct (decide (BtcPk fp = pk)) as [<-|Hne].
      * by exists resp, popBytes, (Commission fp), desBytes.
      * rewrite Hfps, lookup_insert_ne in Hafter by done. congruence.
    + rewrite Hreg in Hafter. congruence.
    + rewrite Hreg in Hafter. congruence.
Qed.

(** ** C5 *)

(** Whatever the state in which the registered event is served: an answer
    is sent only after the status write has gone through, and the state in
    which it is sent has the provider in REGISTERED. *)
Lemma eventLoop_registered_durable ev a :
  match eventLoop_registered ev a with
  | (a', Some resp) =>
      ∃ a1, fps_SetFpStatus (ev_btcPubKey ev) REGISTERED a = (a1, Ok tt) ∧
            status_of a1 (ev_btcPubKey ev) = Some REGISTERED ∧
            a' = emit (EReplyRegistered resp)
                   (emit (ERecordFpStatus (ev_btcPubKey ev) REGISTERED) a1) ∧
            btcPubKey resp = ev_btcPubKey ev ∧ TxHash resp = ev_txHash ev
  | (a', None) =>
      is_err (fps_SetFpStatus (ev_btcPubKey ev) REGISTERED a).2 = true ∧
      a' = emit (ELog LFatal "failed to set finality-provider status to REGISTERED") a
  end.
Proof.
  unfold eventLoop_registered, fps_SetFpStatus, store.SetFpStatus, MustToBTCPK,
    status_of.
  destruct (fps a !! ev_btcPubKey ev) as [fp|]; [|done].
  case_bool_decide; [done|].
  eexists. split; [done|]. cbn [fps emit set_fps].
  by rewrite lookup_insert_eq.
Qed.

(** C5. When [RegisterFinalityProvider] answers with success, the status of
    the provider was written as REGISTERED before the answer was sent: the
    effects of the call are the submission of the registration transaction,
    the status write, the metric, and last the answer, which carries the
    hash the chain returned; and the store the caller then observes has the
    provider in REGISTERED. *)
Theorem registered_before_success_response (w : World) (s : string)
    (a a' : App) (resp : RegisterFinalityProviderResponse) :
  RegisterFinalityProvider w s a = (a', Some (Ok resp)) →
  status_of a' (btcPubKey resp) = Some REGISTERED ∧
  ∃ popBytes commission desBytes,
    cc_RegisterFinalityProvider w (btcPubKey resp) popBytes commission desBytes
      = Ok (TxHash resp) ∧
    history a' = history a ++
      [ ESubmit (TxRegister (btcPubKey resp) popBytes commission desBytes);
        ELog LInfo "successfully registered finality-provider on babylon";
        EStatusWrite (btcPubKey resp) REGISTERED;
        ERecordFpStatus (btcPubKey resp) REGISTERED;
        EReplyRegistered resp ].
Proof.
  intros Hreg. apply RegisterFinalityProvider_cases in Hreg.
  destruct Hreg as (pk & fp & fp0 & popBytes & desBytes & _ & _ & _ &
                    Hresp & Htx & _ & Hfps & Hhist).
  rewrite Hresp. split.
  - unfold status_of. by rewrite Hfps, lookup_insert_eq.
  - by exists popBytes, (Commission fp), desBytes.
Qed.

Lemma registered_before_success_response_witness :
  status_of (RegisterFinalityProvider quiet "1234567" (app_with 7 CREATED)).1 7
  = Some REGISTERED.
Proof.
  refine (proj1 (registered_before_success_response quiet "1234567"
                   (app_with 7 CREATED)
                   (RegisterFinalityProvider quiet "1234567" (app_with 7 CREATED)).1
                   {| bbnAddress := []; btcPubKey := 7; TxHash := "0xAA" |} _)).
  vm_compute. reflexivity.
Defined.

(** ** C6 *)

(** C6. After a creation that succeeded, a second creation with the same
    EOTS public key is answered with an error and changes nothing: the
    application is as the first call left it, and the record stored under
    the key is the one the first call created and reported. *)
Theorem create_twice (w1 w2 : World) (req1 req2 : createFinalityProviderRequest)
    (a a1 : App) (r1 : createFinalityProviderResponse) :
  CreateFinalityProvider w1 req1 a = (a1, Some (Ok r1)) →
  req_eotsPk req2 = req_eotsPk req1 →
  ∃ e pk fp,
    CreateFinalityProvider w2 req2 a1 = (a1, Some (Err e)) ∧
    req_eotsPk req1 = Some pk ∧
    fps a1 !! pk = Some fp ∧
    FpInfo r1 = store.ToFinalityProviderInfo fp.
Proof.
  unfold CreateFinalityProvider at 1. intros H1 Hreq.
  destruct (loops_running a) eqn:Hrun; [|discriminate].
  unfold eventLoop_create, bind, ret in H1.
  destruct (handleCreateFinalityProviderRequest w1 req1 a) as [a1' [x|e]] eqn:Hc;
    [|discriminate].
  injection H1 as -> <-.
  apply handleCreateFinalityProviderRequest_ok in Hc
    as (pk & fp & Hpk & _ & Hfps & _ & _ & _ & Hinfo & Hrun1).
  assert (fps a1 !! pk = Some fp) as Hstored
    by (rewrite Hfps; apply lookup_insert_eq).
  rewrite Hrun in Hrun1.
  destruct (handleCreateFinalityProviderRequest_taken w2 req2 a1 pk) as [e He].
  { by rewrite Hreq. }
  { by eexists. }
  exists e, pk, fp. unfold CreateFinalityProvider, eventLoop_create, bind.
  rewrite Hrun1, He. cbn [FpInfo]. done.
Qed.

Lemma create_twice_witness :
  ∃ e pk fp,
    CreateFinalityProvider quiet (a_request 7)
      (CreateFinalityProvider quiet (a_request 7) (Start NewFinalityProviderApp).1).1
    = ((CreateFinalityProvider quiet (a_request 7) (Start NewFinalityProviderApp).1).1,
       Some (Err e)) ∧
    req_eotsPk (a_request 7) = Some pk ∧
    fps (CreateFinalityProvider quiet (a_request 7) (Start NewFinalityProviderApp).1).1
      !! pk = Some fp ∧
    FpInfo {| FpInfo := store.ToFinalityProviderInfo (a_provider 7 CREATED) |}
      = store.ToFinalityProviderInfo fp.
Proof.
  apply (create_twice quiet quiet (a_request 7) (a_request 7)
           (Start NewFinalityProviderApp).1); [|reflexivity].
  vm_compute. reflexivity.
Defined.

(** ** C7 *)

(** C7. [CreatePop] hashes the bytes of the address with [tmhash.Sum]
    (SHA-256) and asks the EOTS manager, by public key only, for a Schnorr
    signature of the hash.  When the manager signs, the proof of possession
    has signature type BIP340 and exactly the signature of the manager, it
    verifies under the key, and the application is untouched; when the
    manager fails, so does [CreatePop]. *)
Theorem CreatePop_bit_exact (w : World) (fpAddr : bytes) (pk : PK)
    (passphrase : string) (a : App) :
  signs_soundly w →
  match em_SignSchnorrSig w pk (tmhash_Sum w fpAddr) passphrase with
  | Ok sig =>
      CreatePop w fpAddr pk passphrase a
        = (a, Ok {| BtcSigType := BIP340; BtcSig := sig |}) ∧
      PoP_Verify w fpAddr pk {| BtcSigType := BIP340; BtcSig := sig |} = true
  | Err e =>
      CreatePop w fpAddr pk passphrase a
        = (a, Err (Wrapf "failed to get schnorr signature from the EOTS manager" e))
  end.
Proof.
  intros Hsound.
  unfold CreatePop, bind, wrapf, lift, ret, MustMarshal, sig_MustMarshal,
    NewBIP340SignatureFromBTCSig, PoP_Verify.
  destruct (em_SignSchnorrSig w pk (tmhash_Sum w fpAddr) passphrase) as [sig|e] eqn:Hsig;
    [|reflexivity].
  split; [reflexivity|]. cbn. by eapply Hsound.
Qed.

Lemma quiet_signs_soundly : signs_soundly quiet.
Proof.
  intros pk h pass sig. cbn. intros H. injection H as <-.
  by apply bool_decide_eq_true_2.
Defined.

Lemma CreatePop_bit_exact_witness :
  CreatePop quiet [Byte.x61; Byte.x62] 7 "" NewFinalityProviderApp
    = (NewFinalityProviderApp,
       Ok {| BtcSigType := BIP340; BtcSig := [Byte.x61; Byte.x62] |}) ∧
  PoP_Verify quiet [Byte.x61; Byte.x62] 7
    {| BtcSigType := BIP340; BtcSig := [Byte.x61; Byte.x62] |} = true.
Proof.
  exact (CreatePop_bit_exact quiet [Byte.x61; Byte.x62] 7 ""
           NewFinalityProviderApp quiet_signs_soundly).
Defined.

(** ** C8 *)

(** C8 fails when the first [Stop] fails: the second returns nil. *)
Lemma second_Stop_forgets_the_error :
  (Stop (with_manager (λ _ _, None) (Some (Errorf "cannot stop")) quiet)
     (app_with 7 ACTIVE)).2 = Err (Errorf "cannot stop") ∧
  (Stop (with_manager (λ _ _, None) (Some (Errorf "cannot stop")) quiet)
     (Stop (with_manager (λ _ _, None) (Some (Errorf "cannot stop")) quiet)
        (app_with 7 ACTIVE)).1).2 = Ok tt.
Proof. split; vm_compute; reflexivity. Qed.

(** C8, as it holds of the code. A second [Start] is a no-op that returns
    the result of the first, which is always nil: no loop is spawned again.
    A second [Stop] is a no-op that returns nil: nothing is shut down again;
    this is the result of the first [Stop] when the first one succeeded. *)
Theorem Start_Stop_once (w w' : World) (a : App) :
  (Start a).2 = Ok tt ∧
  Start (Start a).1 = ((Start a).1, Ok tt) ∧
  Stop w' (Stop w a).1 = ((Stop w a).1, Ok tt) ∧
  ((Stop w a).2 = Ok tt → (Stop w' (Stop w a).1).2 = (Stop w a).2).
Proof.
  assert (startOnce (Start a).1 = true) as Hstart.
  { unfold Start. by destruct (startOnce a) eqn:H. }
  assert (stopOnce (Stop w a).1 = true) as Hstop.
  { unfold Stop. destruct (stopOnce a) eqn:H; [done|].
    unfold bind, log, effect, fpManager_Stop, check.
    destruct (fpm_Stop w); [done|]. by destruct (em_Close w). }
  assert (Stop w' (Stop w a).1 = ((Stop w a).1, Ok tt)) as Hsecond.
  { unfold Stop at 1. by rewrite Hstop. }
  repeat split.
  - unfold Start. by destruct (startOnce a).
  - unfold Start at 1. by rewrite Hstart.
  - exact Hsecond.
  - intros ->. by rewrite Hsecond.
Qed.

(** ** C9 *)

Lemma sync_fps_answered w h l r a :
  sync_fps w h l r a = sync_fps w h (List.filter (answers w h) l) r a.
Proof.
  revert r a. induction l as [|fp rest IH]; intros r a; [reflexivity|].
  cbn [List.filter]. unfold answers at 1.
  destruct (cc_QueryFinalityProviderVotingPower w (BtcPk fp) h) as [vp|e] eqn:Hq;
    cbn [is_ok].
  - cbn [sync_fps]. rewrite Hq. unfold bind.
    destruct (IsFinalityProviderRunning _ a) as [a0 [[|]|]]; [apply IH| |done].
    destruct (fps_UpdateFpStatusFromVotingPower vp fp a0) as [a1 [s|]]; [|done].
    destruct (if bool_decide _ then _ else _) as [a2 [fp'|]]; [|done].
    destruct (negb (store.ShouldStart fp')); [apply IH|].
    destruct (StartFinalityProvider _ _ _ a2) as [a3 [[]|]]; [apply IH|done].
  - cbn [sync_fps]. rewrite Hq. apply IH.
Qed.

Lemma sync_fps_error w h l r a e :
  (sync_fps w h l r a).2 = Err e →
  (∃ pk, fpm_StartFinalityProvider w pk "" = Some e) ∨
  (∃ vp fp a0, (fps_UpdateFpStatusFromVotingPower vp fp a0).2 = Err e).
Proof.
  revert r a. induction l as [|fp rest IH]; intros r a; [discriminate|].
  cbn [sync_fps].
  destruct (cc_QueryFinalityProviderVotingPower w (BtcPk fp) h) as [vp|_];
    [|apply IH].
  unfold bind at 1, IsFinalityProviderRunning.
  destruct (bool_decide _); [apply IH|].
  unfold bind at 1.
  destruct (fps_UpdateFpStatusFromVotingPower vp fp a) as [a1 [s|e']] eqn:Hup.
  - unfold bind at 1.
    assert (∃ a2 fp', (if bool_decide (Status fp ≠ s)
                       then exec log LInfo "Update FP status"; ret (with_Status s fp)
                       else ret fp) a1 = (a2, Ok fp')) as (a2 & fp' & ->).
    { case_bool_decide; by eexists _, _. }
    destruct (negb (store.ShouldStart fp')); [apply IH|].
    unfold bind at 1, StartFinalityProvider, GetBIP340BTCPK.
    destruct (fpm_StartFinalityProvider w (BtcPk fp) "") as [e'|] eqn:Hstart;
      [|apply IH].
    cbn. intros H. injection H as <-. left. by exists (BtcPk fp).
  - cbn. intros H. injection H as <-. right. exists vp, fp, a. by rewrite Hup.
Qed.

(** C9 fails when the manager cannot start an instance: the best block is
    known, the status update goes through, and the sync returns the error
    of the start. *)
Lemma sync_aborts_when_start_fails :
  is_ok (cc_QueryBestBlock
           (with_manager (λ _ _, Some (Errorf "cannot start")) None quiet)) = true ∧
  (fps_UpdateFpStatusFromVotingPower 0 (a_provider 7 CREATED) (app_with 7 CREATED)).2
    = Ok REGISTERED ∧
  (SyncFinalityProviderStatus
     (with_manager (λ _ _, Some (Errorf "cannot start")) None quiet)
     (app_with 7 CREATED)).2 = Err (Errorf "cannot start").
Proof. repeat split; vm_compute; reflexivity. Qed.

(** C9, as it holds of the code. In [SyncFinalityProviderStatus] a stored
    provider whose voting-power query fails is skipped in silence: the sync
    is, in state, effects and result, the sync over the providers whose
    query is answered; when no query is answered and the best block is
    known, the application is untouched and the result is (false, nil). The
    sync returns an error only when [QueryBestBlock] fails, when a status
    update fails, or when [StartFinalityProvider] fails. *)
Theorem sync_skips_unanswered (w : World) (a : App) :
  (∀ h l r, sync_fps w h l r a
            = sync_fps w h (List.filter (answers w h) l) r a) ∧
  (∀ b, cc_QueryBestBlock w = Ok b →
        (∀ fp, fp ∈ (map_to_list (fps a)).*2 → answers w (Height b) fp = false) →
        SyncFinalityProviderStatus w a = (a, Ok false)) ∧
  (∀ e, (SyncFinalityProviderStatus w a).2 = Err e →
        cc_QueryBestBlock w = Err e ∨
        (∃ pk, fpm_StartFinalityProvider w pk "" = Some e) ∨
        (∃ vp fp a0, (fps_UpdateFpStatusFromVotingPower vp fp a0).2 = Err e)).
Proof.
  split; [|split].
  - intros h l r. apply sync_fps_answered.
  - intros b Hb Hnone.
    unfold SyncFinalityProviderStatus, bind, lift,
      fps_GetAllStoredFinalityProviders, store.GetAllStoredFinalityProviders.
    rewrite Hb, sync_fps_answered.
    replace (List.filter _ _) with (@nil StoredFinalityProvider); [done|].
    symmetry. induction ((map_to_list (fps a)).*2) as [|fp l IH]; [done|].
    cbn. rewrite (Hnone fp) by apply list_elem_of_here.
    apply IH. intros fp' Hin. apply Hnone. by apply list_elem_of_further.
  - intros e.
    unfold SyncFinalityProviderStatus, bind, lift,
      fps_GetAllStoredFinalityProviders, store.GetAllStoredFinalityProviders.
    destruct (cc_QueryBestBlock w) as [b|e'].
    + intros H. right. by apply sync_fps_error in H.
    + cbn. intros H. injection H as <-. by left.
Qed.

(** ** C10 *)

Lemma syncChainFpStatusLoop_select_app pre rest a a1 :
  syncChainFpStatusLoop_select pre a = (a1, false) →
  syncChainFpStatusLoop_select (pre ++ rest) a
  = syncChainFpStatusLoop_select rest a1.
Proof.
  revert a. induction pre as [|c pre IH]; intros a.
  - cbn. intros H. by injection H as <-.
  - rewrite <- app_comm_cons. cbn [syncChainFpStatusLoop_select].
    destruct c as [w|]; [|intros H; discriminate H].
    destruct (SyncFinalityProviderStatus w a) as [a' [[|]|e]];
      [intros H; discriminate H|apply IH|apply IH].
Qed.

(** C10. Once a tick of [syncChainFpStatusLoop] finds that
    [SyncFinalityProviderStatus] reports a running instance, the loop
    returns: whatever ticks come afterwards, no sync is run for them and
    the application is as that tick left it.  The loop also returns when
    [quit] is closed.  A tick whose sync reports no running instance, or
    fails, leaves the loop running for what comes next. *)
Theorem syncChainFpStatusLoop_exits (pre post : list select_case) (a a1 : App) :
  syncChainFpStatusLoop pre a = (a1, false) →
  (∀ w, (SyncFinalityProviderStatus w a1).2 = Ok true →
        syncChainFpStatusLoop (pre ++ Tick w :: post) a
        = (wg_Done (SyncFinalityProviderStatus w a1).1, true)) ∧
  syncChainFpStatusLoop (pre ++ Quit :: post) a
    = (wg_Done (emit (ELog LInfo "exiting sync FP status loop") a1), true) ∧
  (∀ w, (SyncFinalityProviderStatus w a1).2 = Ok false →
        syncChainFpStatusLoop (pre ++ Tick w :: post) a
        = syncChainFpStatusLoop_select post (SyncFinalityProviderStatus w a1).1) ∧
  (∀ w e, (SyncFinalityProviderStatus w a1).2 = Err e →
        syncChainFpStatusLoop (pre ++ Tick w :: post) a
        = syncChainFpStatusLoop_select post
            (emit (ELog LError "failed to sync finality-provider status")
               (SyncFinalityProviderStatus w a1).1)).
Proof.
  unfold syncChainFpStatusLoop. intros Hpre.
  repeat split; intros;
    rewrite (syncChainFpStatusLoop_select_app _ _ _ _ Hpre);
    cbn [syncChainFpStatusLoop_select]; [| done | |];
    destruct (SyncFinalityProviderStatus w a1) as [a2 r];
    cbn [fst snd] in *; by subst r.
Qed.

Lemma syncChainFpStatusLoop_exits_witness :
  syncChainFpStatusLoop
    ([Tick (unanswered quiet)] ++ Tick quiet :: [Tick (with_voting_power 1 quiet)])
    (app_with 7 REGISTERED)
  = (wg_Done (SyncFinalityProviderStatus quiet
                (syncChainFpStatusLoop [Tick (unanswered quiet)]
                   (app_with 7 REGISTERED)).1).1, true).
Proof.
  refine (proj1 (syncChainFpStatusLoop_exits [Tick (unanswered quiet)]
                   [Tick (with_voting_power 1 quiet)] (app_with 7 REGISTERED)
                   (syncChainFpStatusLoop [Tick (unanswered quiet)]
                      (app_with 7 REGISTERED)).1 _) quiet _);
    vm_compute; reflexivity.
Defined.

(** * Further properties of [app.go] *)

(** ** Relations kept along a computation *)

Section Respects.
Context (R : App → App → Prop) `{!PreOrder R}.

Lemma respects_ret {A} (x : A) : respects R (ret x).
Proof. intros a. reflexivity. Qed.

Lemma respects_fail {A} e : respects R (@fail A e).
Proof. intros a. reflexivity. Qed.

Lemma respects_lift {A} (r : result A) : respects R (lift r).
Proof. intros a. reflexivity. Qed.

Lemma respects_check o : respects R (check o).
Proof. intros a. unfold check. destruct o; reflexivity. Qed.

Lemma respects_bind {A B} (m : M A) (k : A → M B) :
  respects R m → (∀ x, respects R (k x)) → respects R (bind m k).
Proof.
  intros Hm Hk a. unfold bind. specialize (Hm a).
  destruct (m a) as [a' [x|e]]; simpl in *; [|exact Hm].
  etransitivity; [exact Hm|apply Hk].
Qed.

Lemma respects_wrapf {A} msg (m : M A) : respects R m → respects R (wrapf msg m).
Proof.
  intros Hm a. unfold wrapf. specialize (Hm a).
  destruct (m a) as [a' [x|e]]; exact Hm.
Qed.

Lemma respects_fps_GetFinalityProvider pk : respects R (fps_GetFinalityProvider pk).
Proof. intros a. reflexivity. Qed.

Lemma respects_fps_GetAllStoredFinalityProviders :
  respects R fps_GetAllStoredFinalityProviders.
Proof. intros a. reflexivity. Qed.

Lemma respects_IsFinalityProviderRunning pk :
  respects R (IsFinalityProviderRunning pk).
Proof. intros a. reflexivity. Qed.

Lemma respects_fps_UpdateFpStatusFromVotingPower vp fp :
  (∀ s, respects R (fps_SetFpStatus (BtcPk fp) s)) →
  respects R (fps_UpdateFpStatusFromVotingPower vp fp).
Proof.
  intros HSet. unfold fps_UpdateFpStatusFromVotingPower.
  repeat first
    [ apply respects_bind; [|intros ?]
    | apply HSet
    | apply respects_ret
    | match goal with
      | |- respects R (if ?b then _ else _) => destruct b
      | |- respects R (match ?x with _ => _ end) => destruct x
      end ].
Qed.

(** What is left to show is that the writes and the effects respect [R]. *)
Hypothesis R_update_log : ∀ a, R a (emit (ELog LInfo "Update FP status") a).
Hypothesis R_SetFpStatus : ∀ pk s, respects R (fps_SetFpStatus pk s).

Hypothesis R_Start : ∀ w pk pass, respects R (StartFinalityProvider w pk pass).

Lemma respects_sync_fps w h l r : respects R (sync_fps w h l r).
Proof.
  revert r. induction l as [|fp rest IH]; intros r; cbn [sync_fps].
  - apply respects_ret.
  - destruct (cc_QueryFinalityProviderVotingPower w (BtcPk fp) h); [|apply IH].
    apply respects_bind; [apply respects_IsFinalityProviderRunning|].
    intros [|]; [apply IH|].
    apply respects_bind.
    { apply respects_fps_UpdateFpStatusFromVotingPower. intros s.
      apply R_SetFpStatus. }
    intros s. apply respects_bind.
    { case_bool_decide; [|apply respects_ret].
      apply respects_bind; [exact R_update_log|intros; apply respects_ret]. }
    intros fp'. destruct (negb (store.ShouldStart fp')); [apply IH|].
    apply respects_bind; [apply R_Start|intros; apply IH].
Qed.

Lemma respects_SyncFinalityProviderStatus w :
  respects R (SyncFinalityProviderStatus w).
Proof.
  unfold SyncFinalityProviderStatus.
  apply respects_bind; [apply respects_lift|intros b].
  apply respects_bind; [apply respects_fps_GetAllStoredFinalityProviders|].
  intros l. apply respects_sync_fps.
Qed.
End Respects.

Lemma emitted_refl P a : emitted P a a.
Proof. exists []. split; [by rewrite app_nil_r|constructor]. Qed.

Lemma emitted_trans P a1 a2 a3 :
  emitted P a1 a2 → emitted P a2 a3 → emitted P a1 a3.
Proof.
  intros (l1 & H1 & F1) (l2 & H2 & F2). exists (l1 ++ l2). split.
  - by rewrite H2, H1, app_assoc.
  - by apply Forall_app.
Qed.

Lemma emitted_emit (P : Effect → Prop) e a : P e → emitted P a (emit e a).
Proof. intros He. exists [e]. split; [done|]. by constructor. Qed.

Lemma emitted_same_history P a a' : history a' = history a → emitted P a a'.
Proof. intros H. exists []. split; [by rewrite app_nil_r|constructor]. Qed.

#[local] Instance sync_rel_preorder : PreOrder sync_rel.
Proof.
  split.
  - intros a. split; [done|]. split; [done|apply emitted_refl].
  - intros a1 a2 a3 (C1 & R1 & E1) (C2 & R2 & E2).
    split; [congruence|]. split; [set_solver|by eapply emitted_trans].
Qed.

#[local] Instance calm_preorder : PreOrder calm.
Proof.
  split.
  - intros a. split; [done|]. split; [done|]. split; [by left|apply emitted_refl].
  - intros a1 a2 a3 (C1 & Q1 & S1 & E1) (C2 & Q2 & S2 & E2).
    split; [congruence|]. split; [tauto|]. split; [|by eapply emitted_trans].
    destruct S2 as [S2|S2]; [|by right].
    destruct S1 as [S1|S1]; [left; congruence|right; tauto].
Qed.

(** ** What a status sync does at most *)

Lemma sync_rel_SetFpStatus pk s : respects sync_rel (fps_SetFpStatus pk s).
Proof.
  intros a. unfold fps_SetFpStatus.
  destruct (store.SetFpStatus (fps a) pk s) as [m|e]; [|reflexivity].
  split; [done|]. split; [done|].
  apply (emitted_emit sync_effect (EStatusWrite pk s) (set_fps m a)).
  right. by exists pk, s.
Qed.

Lemma sync_rel_Start w pk pass : respects sync_rel (StartFinalityProvider w pk pass).
Proof.
  intros a. unfold StartFinalityProvider.
  destruct (fpm_StartFinalityProvider w pk pass); [reflexivity|].
  split; [done|]. split; [cbn; set_solver|by apply emitted_same_history].
Qed.

Lemma sync_rel_update_log a : sync_rel a (emit (ELog LInfo "Update FP status") a).
Proof.
  split; [done|]. split; [done|]. apply emitted_emit. by left.
Qed.

Lemma sync_rel_sync_fps w h l r : respects sync_rel (sync_fps w h l r).
Proof.
  apply respects_sync_fps; try apply _.
  - apply sync_rel_update_log.
  - apply sync_rel_SetFpStatus.
  - apply sync_rel_Start.
Qed.

Lemma sync_rel_SyncFinalityProviderStatus w :
  respects sync_rel (SyncFinalityProviderStatus w).
Proof.
  apply respects_SyncFinalityProviderStatus; try apply _.
  - apply sync_rel_update_log.
  - apply sync_rel_SetFpStatus.
  - apply sync_rel_Start.
Qed.

(** X1. A status sync is local: it leaves the two [sync.Once], the wait
    group and [quit] as they are, it stops no instance, and its only effects
    are status writes and the log of a status change; in particular it
    submits nothing to the chain and answers no request. *)
Theorem sync_is_local (w : World) (a : App) :
  control (SyncFinalityProviderStatus w a).1 = control a ∧
  running a ⊆ running (SyncFinalityProviderStatus w a).1 ∧
  ∃ l, history (SyncFinalityProviderStatus w a).1 = history a ++ l ∧
       Forall sync_effect l.
Proof. apply sync_rel_SyncFinalityProviderStatus. Qed.

(** ** The result of a sync and the instances *)

#[local] Instance update_frame_preorder k : PreOrder (update_frame k).
Proof.
  split.
  - intros a. by split.
  - intros a1 a2 a3 [R1 F1] [R2 F2]. split; [congruence|].
    intros pk Hne. by rewrite F2, F1.
Qed.

Lemma update_frame_SetFpStatus k s : respects (update_frame k) (fps_SetFpStatus k s).
Proof.
  intros a. unfold fps_SetFpStatus, store.SetFpStatus.
  destruct (fps a !! k) as [fp|]; [|reflexivity].
  case_bool_decide; [reflexivity|].
  split; [done|]. intros pk Hne. cbn. by rewrite lookup_insert_ne.
Qed.

Lemma update_frame_UpdateFpStatusFromVotingPower vp fp :
  respects (update_frame (BtcPk fp)) (fps_UpdateFpStatusFromVotingPower vp fp).
Proof.
  apply respects_fps_UpdateFpStatusFromVotingPower; [apply _|].
  intros s. apply update_frame_SetFpStatus.
Qed.

(** One provider of the loop of the sync, when its query is answered [vp]
    and it has no instance: what is left of the loop runs in [a2], which
    differs from [a] in the record of the provider and in the log at most,
    and after a start in [a3]. *)
Lemma sync_fps_step w h fp rest r a vp :
  cc_QueryFinalityProviderVotingPower w (BtcPk fp) h = Ok vp →
  BtcPk fp ∉ running a →
  ∀ X, X = sync_fps w h (fp :: rest) r a →
  (∃ e a2, X = (a2, Err e) ∧ update_frame (BtcPk fp) a a2) ∨
  (∃ a2, update_frame (BtcPk fp) a a2 ∧
         (X = sync_fps w h rest r a2 ∨
          X = sync_fps w h rest true (set_running ({[BtcPk fp]} ∪ running a2) a2))).
Proof.
  intros Hq Hnot X HX. cbn [sync_fps] in HX. rewrite Hq in HX.
  unfold bind at 1, IsFinalityProviderRunning, GetBIP340BTCPK in HX.
  rewrite bool_decide_eq_false_2 in HX by done.
  unfold bind at 1 in HX.
  pose proof (update_frame_UpdateFpStatusFromVotingPower vp fp a) as Hup.
  destruct (fps_UpdateFpStatusFromVotingPower vp fp a) as [a1 [s|e]];
    [|left; by exists e, a1].
  cbn [fst] in Hup. unfold bind at 1 in HX.
  assert (∃ a2 fp', (if bool_decide (Status fp ≠ s)
                     then exec log LInfo "Update FP status"; ret (with_Status s fp)
                     else ret fp) a1 = (a2, Ok fp') ∧ update_frame (BtcPk fp) a a2)
    as (a2 & fp' & Hlog & Hfr).
  { case_bool_decide; eexists _, _; (split; [reflexivity|]); [|exact Hup].
    destruct Hup as [Hr Hf]. by split. }
  rewrite Hlog in HX.
  destruct (negb (store.ShouldStart fp')).
  - right. exists a2. split; [done|]. by left.
  - unfold bind at 1, StartFinalityProvider in HX.
    destruct (fpm_StartFinalityProvider w (BtcPk fp) "") as [e|].
    + left. by exists e, a2.
    + right. exists a2. split; [done|]. by right.
Qed.

Lemma sync_fps_result w h l r a a' r' :
  sync_fps w h l r a = (a', Ok r') →
  if r' then r = true ∨ ∃ pk, pk ∈ running a'
  else r = false ∧ running a' = running a.
Proof.
  revert r a. induction l as [|fp rest IH]; intros r a.
  - cbn. intros H. injection H as <- <-. destruct r; [by left|done].
  - destruct (cc_QueryFinalityProviderVotingPower w (BtcPk fp) h) as [vp|e] eqn:Hq.
    2:{ cbn [sync_fps]. rewrite Hq. apply IH. }
    destruct (decide (BtcPk fp ∈ running a)) as [Hin|Hnot].
    + cbn [sync_fps]. rewrite Hq.
      unfold bind at 1, IsFinalityProviderRunning, GetBIP340BTCPK.
      rewrite bool_decide_eq_true_2 by done. intros H.
      pose proof (sync_rel_sync_fps w h rest true a) as (_ & Hmono & _).
      rewrite H in Hmono. cbn [fst] in Hmono.
      apply IH in H. destruct r'; [|destruct H as [? _]; discriminate].
      right. exists (BtcPk fp). by apply Hmono.
    + destruct (sync_fps_step w h fp rest r a vp Hq Hnot _ eq_refl)
        as [(e & a2 & He & _)|(a2 & [Hr2 _] & [->| ->])].
      * intros H. rewrite H in He. discriminate.
      * intros H. apply IH in H. rewrite Hr2 in H. exact H.
      * intros H.
        pose proof (sync_rel_sync_fps w h rest true
                      (set_running ({[BtcPk fp]} ∪ running a2) a2)) as (_ & Hmono & _).
        rewrite H in Hmono. cbn [fst running set_running] in Hmono.
        apply IH in H. destruct r'; [|destruct H as [? _]; discriminate].
        right. exists (BtcPk fp). apply Hmono, elem_of_union. left.
        by apply elem_of_singleton.
Qed.

(** X2. The result of a sync tells whether an instance runs: when the sync
    returns true some provider has a running instance afterwards, and when
    it returns false the set of running instances is the one before the
    sync, so nothing was started. *)
Theorem sync_result_reflects_instances (w : World) (a a' : App) (r : bool) :
  SyncFinalityProviderStatus w a = (a', Ok r) →
  if r then ∃ pk, pk ∈ running a' else running a' = running a.
Proof.
  unfold SyncFinalityProviderStatus, bind, lift,
    fps_GetAllStoredFinalityProviders, store.GetAllStoredFinalityProviders.
  destruct (cc_QueryBestBlock w) as [b|]; [|discriminate].
  intros H. apply sync_fps_result in H.
  destruct r; [|by destruct H]. by destruct H.
Qed.

Lemma sync_result_reflects_instances_witness :
  ∃ pk, pk ∈ running (SyncFinalityProviderStatus quiet (app_with 7 REGISTERED)).1.
Proof.
  refine (sync_result_reflects_instances quiet (app_with 7 REGISTERED) _ true _).
  vm_compute. reflexivity.
Defined.

(** ** A provider with a running instance *)

Lemma sync_fps_leaves_running w h l r a pk :
  pk ∈ running a →
  fps (sync_fps w h l r a).1 !! pk = fps a !! pk.
Proof.
  revert r a. induction l as [|fp rest IH]; intros r a Hin; [done|].
  destruct (cc_QueryFinalityProviderVotingPower w (BtcPk fp) h) as [vp|e] eqn:Hq.
  2:{ cbn [sync_fps]. rewrite Hq. by apply IH. }
  destruct (decide (BtcPk fp ∈ running a)) as [Hrun|Hnot].
  - cbn [sync_fps]. rewrite Hq.
    unfold bind at 1, IsFinalityProviderRunning, GetBIP340BTCPK.
    rewrite bool_decide_eq_true_2 by done. by apply IH.
  - assert (pk ≠ BtcPk fp) as Hne by (intros ->; done).
    destruct (sync_fps_step w h fp rest r a vp Hq Hnot _ eq_refl)
      as [(e & a2 & -> & [_ Hf2])|(a2 & [Hr2 Hf2] & [->| ->])].
    + by apply Hf2.
    + rewrite IH by (by rewrite Hr2). by apply Hf2.
    + rewrite IH by (cbn; rewrite Hr2; apply elem_of_union; by right).
      cbn. by apply Hf2.
Qed.

(** X3. A status sync never touches the record of a provider that has a
    running instance, whatever the chain reports for it. *)
Theorem sync_leaves_running_provider (w : World) (a : App) (pk : PK) :
  pk ∈ running a →
  fps (SyncFinalityProviderStatus w a).1 !! pk = fps a !! pk.
Proof.
  intros Hin.
  unfold SyncFinalityProviderStatus, bind, lift,
    fps_GetAllStoredFinalityProviders, store.GetAllStoredFinalityProviders.
  destruct (cc_QueryBestBlock w) as [b|]; [|done].
  by apply sync_fps_leaves_running.
Qed.

Lemma sync_leaves_running_provider_witness :
  fps (SyncFinalityProviderStatus (with_voting_power 1 quiet)
         (SyncFinalityProviderStatus quiet (app_with 7 ACTIVE)).1).1 !! 7
  = fps (SyncFinalityProviderStatus quiet (app_with 7 ACTIVE)).1 !! 7.
Proof.
  apply sync_leaves_running_provider. vm_compute. reflexivity.
Defined.

(** ** What every operation but [Start] does at most *)

Lemma calm_emit e a : is_go e = false → calm a (emit e a).
Proof.
  intros He. split; [done|]. split; [done|]. split; [by left|].
  by apply (emitted_emit (λ e, is_go e = false)).
Qed.

Lemma calm_silent a a' :
  startOnce a' = startOnce a → quit a' = quit a → stopOnce a' = stopOnce a →
  history a' = history a → calm a a'.
Proof.
  intros Hs Hq Ho Hh. split; [done|]. split; [congruence|]. split; [by left|].
  by apply emitted_same_history.
Qed.

Lemma calm_effect e : is_go e = false → respects calm (effect e).
Proof. intros He a. by apply calm_emit. Qed.

Lemma calm_log l msg : respects calm (log l msg).
Proof. by apply calm_effect. Qed.

Lemma calm_submit {A} tx (r : result A) : respects calm (submit tx r).
Proof. intros a. by apply calm_emit. Qed.

Lemma calm_fps_SetFpStatus pk s : respects calm (fps_SetFpStatus pk s).
Proof.
  intros a. unfold fps_SetFpStatus.
  destruct (store.SetFpStatus (fps a) pk s) as [m|e]; [|reflexivity].
  by apply (calm_emit (EStatusWrite pk s) (set_fps m a)).
Qed.

Lemma calm_fps_CreateFinalityProvider addr pk d c k ch sig :
  respects calm (fps_CreateFinalityProvider addr pk d c k ch sig).
Proof.
  intros a. unfold fps_CreateFinalityProvider.
  destruct (store.CreateFinalityProvider _ _ _ _ _ _ _ _); [|reflexivity].
  by apply calm_silent.
Qed.

Lemma calm_fps_SetFpLastVotedHeight pk h :
  respects calm (FpInstance.fps_SetFpLastVotedHeight pk h).
Proof.
  intros a. unfold FpInstance.fps_SetFpLastVotedHeight.
  destruct (store.SetFpLastVotedHeight _ _ _); [|reflexivity].
  by apply calm_silent.
Qed.

Lemma calm_StartFinalityProvider w pk pass :
  respects calm (StartFinalityProvider w pk pass).
Proof.
  intros a. unfold StartFinalityProvider.
  destruct (fpm_StartFinalityProvider w pk pass); [reflexivity|].
  by apply calm_silent.
Qed.

Lemma calm_fpManager_Stop w : respects calm (fpManager_Stop w).
Proof.
  intros a. unfold fpManager_Stop.
  destruct (fpm_Stop w); [reflexivity|]. by apply calm_silent.
Qed.

Create HintDb calm.
#[local] Hint Resolve calm_log calm_submit calm_fps_SetFpStatus
  calm_fps_CreateFinalityProvider calm_fps_SetFpLastVotedHeight
  calm_StartFinalityProvider calm_fpManager_Stop : calm.
#[local] Hint Extern 1 (respects calm (ret _)) => apply (respects_ret calm) : calm.
#[local] Hint Extern 1 (respects calm (fail _)) => apply (respects_fail calm) : calm.
#[local] Hint Extern 1 (respects calm (lift _)) => apply (respects_lift calm) : calm.
#[local] Hint Extern 1 (respects calm (check _)) => apply (respects_check calm) : calm.
#[local] Hint Extern 1 (respects calm (fps_GetFinalityProvider _)) =>
  apply (respects_fps_GetFinalityProvider calm) : calm.
#[local] Hint Extern 1 (respects calm (effect _)) =>
  (apply calm_effect; reflexivity) : calm.

Ltac calm_step :=
  match goal with
  | |- ∀ _, _ => intro
  | |- respects calm (bind _ _) => apply (respects_bind calm)
  | |- respects calm (wrapf _ _) => apply (respects_wrapf calm)
  | |- respects calm (if ?b then _ else _) => destruct b
  | |- respects calm (match ?x with _ => _ end) => destruct x
  | |- respects calm _ => solve [auto with calm]
  end.
Ltac calm_auto := repeat calm_step.

Lemma calm_handleCreateFinalityProviderRequest w req :
  respects calm (handleCreateFinalityProviderRequest w req).
Proof. unfold handleCreateFinalityProviderRequest, CreatePop. calm_auto. Qed.

Lemma calm_UnjailFinalityProvider w pk : respects calm (UnjailFinalityProvider w pk).
Proof. unfold UnjailFinalityProvider. calm_auto. Qed.

Lemma calm_SyncFinalityProviderStatus w : respects calm (SyncFinalityProviderStatus w).
Proof.
  apply respects_SyncFinalityProviderStatus; try apply _.
  - intros a. by apply calm_emit.
  - apply calm_fps_SetFpStatus.
  - apply calm_StartFinalityProvider.
Qed.

Lemma calm_SubmitBatchFinalitySignatures w n pk blocks :
  respects calm (FpInstance.SubmitBatchFinalitySignatures w n pk blocks).
Proof. unfold FpInstance.SubmitBatchFinalitySignatures. calm_auto. Qed.

Lemma calm_CreateFinalityProvider w req a :
  calm a (CreateFinalityProvider w req a).1.
Proof.
  unfold CreateFinalityProvider.
  destruct (loops_running a); [|reflexivity].
  pose proof (calm_handleCreateFinalityProviderRequest w req a) as H.
  unfold eventLoop_create, bind, ret.
  destruct (handleCreateFinalityProviderRequest w req a) as [a' [x|e]]; exact H.
Qed.

Lemma calm_RegisterFinalityProvider w s a :
  calm a (RegisterFinalityProvider w s a).1.
Proof.
  unfold RegisterFinalityProvider.
  assert (respects calm (RegisterFinalityProvider_request w s)) as H1
    by (unfold RegisterFinalityProvider_request; calm_auto).
  specialize (H1 a).
  destruct (RegisterFinalityProvider_request w s a) as [a1 [req|e]]; [|exact H1].
  cbn [fst] in H1. destruct (loops_running a1); [|exact H1].
  assert (respects calm (reply_error (registrationLoop_request w req))) as H2.
  { assert (respects calm (registrationLoop_request w req)) as H.
    { unfold registrationLoop_request. calm_auto.
      intros a0; unfold submit; cbn.
      destruct (cc_RegisterFinalityProvider w _ _ _ _).
      - by apply calm_emit.
      - etransitivity; by apply calm_emit. }
    intros a0. unfold reply_error. specialize (H a0).
    destruct (registrationLoop_request w req a0) as [a' [x|e]]; [exact H|].
    etransitivity; [exact H|by apply calm_emit]. }
  specialize (H2 a1).
  destruct (reply_error _ a1) as [a2 [ev|e]]; cbn [fst] in H2;
    [|by etransitivity].
  assert (calm a2 (eventLoop_registered ev a2).1) as H3.
  { unfold eventLoop_registered.
    pose proof (calm_fps_SetFpStatus (MustToBTCPK (ev_btcPubKey ev)) REGISTERED a2) as H.
    destruct (fps_SetFpStatus _ _ a2) as [a' [x|e]]; cbn [fst] in *.
    - etransitivity; [exact H|]. etransitivity; by apply calm_emit.
    - etransitivity; [exact H|by apply calm_emit]. }
  destruct (eventLoop_registered ev a2) as [a3 [resp|]]; cbn [fst] in *;
    etransitivity; try exact H1; by etransitivity.
Qed.

Lemma Stop_calm w a : calm a (Stop w a).1.
Proof.
  unfold Stop. destruct (stopOnce a) eqn:Hstop; [reflexivity|].
  assert (∀ a1,
            calm (emit ECloseQuit (set_quit true
                    (emit (ELog LDebug "Stopping submission loop")
                       (emit (ELog LInfo "Stopping FinalityProviderApp")
                          (set_stopOnce true a))))) a1 →
            calm a a1) as Hfrom.
  { intros a1 (C & Q & S & l & Hl & Fl).
    split; [exact C|]. split; [intros _; by apply Q|].
    split; [right; by apply Q|].
    exists (ELog LInfo "Stopping FinalityProviderApp"
            :: ELog LDebug "Stopping submission loop" :: ECloseQuit :: l).
    split; [rewrite Hl; cbn; by rewrite <- !app_assoc|].
    by repeat constructor. }
  unfold bind at 1, log, effect. unfold bind at 1. unfold bind at 1.
  apply Hfrom.
  set (a0 := emit ECloseQuit _). generalize a0.
  change (respects calm (
    exec (λ a, (emit EWait (set_wg 0 a), Ok tt));
    exec effect (ELog LDebug "Stopping finality providers");
    exec fpManager_Stop w;
    exec effect (ELog LDebug "Stopping EOTS manager");
    exec check (em_Close w);
    effect (ELog LDebug "FinalityProviderApp successfully stopped"))).
  calm_auto.
  intros a'. by apply (calm_emit EWait (set_wg 0 a')).
Qed.

(** ** Start and stop along a trace *)

Lemma spawned_calm a a' : calm a a' → spawned a' = spawned a.
Proof.
  intros (_ & _ & _ & l & Hl & Fl). unfold spawned.
  rewrite Hl, List.filter_app, length_app.
  replace (List.filter is_go l) with (@nil Effect);
    [cbn [length]; by rewrite Nat.add_0_r|].
  clear Hl. induction Fl as [|e l He _ IH]; [done|]. cbn. by rewrite He.
Qed.

Lemma Start_cases a :
  (startOnce a = true ∧ (Start a).1 = a) ∨
  (startOnce a = false ∧ startOnce (Start a).1 = true ∧
   quit (Start a).1 = quit a ∧ stopOnce (Start a).1 = stopOnce a ∧
   spawned (Start a).1 = (spawned a + 4)%nat).
Proof.
  unfold Start. destruct (startOnce a) eqn:Hs; [by left|right].
  cbn. repeat split; try done.
  unfold spawned. cbn. rewrite <- !app_assoc, List.filter_app, length_app.
  reflexivity.
Qed.

Lemma step_calm a op : op ≠ OpStart → calm a (step a op).
Proof.
  destruct op; cbn; intros Hne; try done.
  - apply Stop_calm.
  - apply calm_CreateFinalityProvider.
  - apply calm_RegisterFinalityProvider.
  - apply calm_UnjailFinalityProvider.
  - apply calm_SyncFinalityProviderStatus.
  - apply calm_SubmitBatchFinalitySignatures.
  - apply calm_fps_SetFpStatus.
Qed.

(** The state of a started or stopped application is coherent: the loops
    were spawned exactly when [Start] ran, and [quit] is closed when [Stop]
    ran. *)
Lemma coherent_step a op :
  (spawned a = if startOnce a then 4 else 0)%nat ∧ (stopOnce a = true → quit a = true) →
  (spawned (step a op) = if startOnce (step a op) then 4 else 0)%nat ∧
  (stopOnce (step a op) = true → quit (step a op) = true).
Proof.
  intros [Hsp Hst].
  assert (op = OpStart ∨ op ≠ OpStart) as [->|Hne]
    by (destruct op; (by left) || (by right)).
  - cbn. destruct (Start_cases a) as [[Hs ->]|(Hs & Hs' & Hq & Ho & Hn)]; [done|].
    rewrite Hs', Hn, Hsp, Hs, Hq, Ho. done.
  - pose proof (step_calm a op Hne) as Hc.
    rewrite (spawned_calm _ _ Hc).
    destruct Hc as (Hs & Hq & Ho & _). rewrite Hs. split; [done|].
    intros Hstop. destruct Ho as [Ho|Ho]; [|done].
    rewrite Ho in Hstop. auto.
Qed.

Lemma coherent_run ops a :
  (spawned a = if startOnce a then 4 else 0)%nat ∧ (stopOnce a = true → quit a = true) →
  (spawned (run ops a) = if startOnce (run ops a) then 4 else 0)%nat ∧
  (stopOnce (run ops a) = true → quit (run ops a) = true).
Proof.
  revert a. induction ops as [|op ops IH]; intros a H; [done|].
  cbn. by apply IH, coherent_step.
Qed.

Lemma started_run ops a :
  startOnce (run ops a) = true ↔ startOnce a = true ∨ OpStart ∈ ops.
Proof.
  revert a. induction ops as [|op ops IH]; intros a.
  - cbn. split; [by left|]. intros [H|H]; [done|]. by apply elem_of_nil in H.
  - change (run (op :: ops) a) with (run ops (step a op)).
    rewrite IH, elem_of_cons.
    assert (op = OpStart ∨ op ≠ OpStart) as [->|Hne]
      by (destruct op; (by left) || (by right)).
    + cbn. destruct (Start_cases a) as [[Hs ->]|(Hs & Hs' & _)]; [tauto|].
      rewrite Hs'. tauto.
    + destruct (step_calm a op Hne) as (Hs & _). rewrite Hs.
      split; [tauto|]. intros [H|[H|H]]; [tauto|congruence|tauto].
Qed.




(** X4. Whatever is done with an application and however often [Start] is
    called, its four loops are spawned exactly once: four loops have been
    spawned after any trace in which [Start] occurs, and none after a trace
    in which it does not. *)
Theorem loops_spawned_once (ops : list Op) :
  (OpStart ∈ ops → spawned (run ops NewFinalityProviderApp) = 4%nat) ∧
  (OpStart ∉ ops → spawned (run ops NewFinalityProviderApp) = 0%nat).
Proof.
  destruct (coherent_run ops NewFinalityProviderApp) as [Hsp _]; [done|].
  pose proof (started_run ops NewFinalityProviderApp) as Hst.
  destruct (startOnce (run ops NewFinalityProviderApp)).
  - split; [done|]. intros Hnot.
    destruct (proj1 Hst eq_refl) as [H|H]; [discriminate H|done].
  - split; [|done]. intros Hin.
    assert (false = true) by (apply Hst; by right). discriminate.
Qed.





(** ** The wait group and the sync loop *)

Lemma syncChainFpStatusLoop_select_control cases a :
  startOnce (syncChainFpStatusLoop_select cases a).1 = startOnce a ∧
  stopOnce (syncChainFpStatusLoop_select cases a).1 = stopOnce a ∧
  quit (syncChainFpStatusLoop_select cases a).1 = quit a ∧
  wg (syncChainFpStatusLoop_select cases a).1
  = if (syncChainFpStatusLoop_select cases a).2 then Nat.pred (wg a) else wg a.
Proof.
  revert a. induction cases as [|c cases IH]; intros a; [done|].
  destruct c as [w|]; [|done]. cbn [syncChainFpStatusLoop_select].
  pose proof (sync_rel_SyncFinalityProviderStatus w a) as (Hc & _).
  destruct (SyncFinalityProviderStatus w a) as [a' [[|]|e]]; cbn [fst] in Hc;
    injection Hc as Hs Ho Hw Hq.
  - cbn. by rewrite Hs, Ho, Hw, Hq.
  - rewrite <- Hs, <- Ho, <- Hw, <- Hq. apply IH.
  - rewrite <- Hs, <- Ho, <- Hw, <- Hq.
    apply (IH (emit (ELog LError "failed to sync finality-provider status") a')).
Qed.

(** X7. [syncChainFpStatusLoop] signals the wait group exactly once, when
    it returns, and otherwise leaves the wait group, the two [sync.Once]
    and [quit] alone, whatever its ticks find. *)
Theorem syncChainFpStatusLoop_signals_once (cases : list select_case) (a : App) :
  wg (syncChainFpStatusLoop cases a).1
  = (if (syncChainFpStatusLoop cases a).2 then Nat.pred (wg a) else wg a) ∧
  startOnce (syncChainFpStatusLoop cases a).1 = startOnce a ∧
  stopOnce (syncChainFpStatusLoop cases a).1 = stopOnce a ∧
  quit (syncChainFpStatusLoop cases a).1 = quit a.
Proof.
  unfold syncChainFpStatusLoop.
  destruct (syncChainFpStatusLoop_select_control cases
              (emit (ELog LInfo "starting sync FP status loop") a))
    as (Hs & Ho & Hq & Hw).
  by rewrite Hs, Ho, Hq, Hw.
Qed.

(** X8. A chain that is down does not end the sync loop.  When at every
    tick [QueryBestBlock] fails, the loop is still running after the last
    tick; it has logged its start and one error for each tick, and it has
    changed nothing else of the application. *)
Theorem syncChainFpStatusLoop_survives_outage (cases : list select_case) (a : App) :
  chain_down cases →
  (syncChainFpStatusLoop cases a).2 = false ∧
  fps (syncChainFpStatusLoop cases a).1 = fps a ∧
  running (syncChainFpStatusLoop cases a).1 = running a ∧
  control (syncChainFpStatusLoop cases a).1 = control a ∧
  history (syncChainFpStatusLoop cases a).1
  = history a ++ ELog LInfo "starting sync FP status loop"
      :: replicate (length cases)
           (ELog LError "failed to sync finality-provider status").
Proof.
  unfold syncChainFpStatusLoop. intros Hdown.
  assert (∀ a0,
    (syncChainFpStatusLoop_select cases a0).2 = false ∧
    fps (syncChainFpStatusLoop_select cases a0).1 = fps a0 ∧
    running (syncChainFpStatusLoop_select cases a0).1 = running a0 ∧
    control (syncChainFpStatusLoop_select cases a0).1 = control a0 ∧
    history (syncChainFpStatusLoop_select cases a0).1
    = history a0 ++ replicate (length cases)
        (ELog LError "failed to sync finality-provider status")) as H.
  { induction Hdown as [|c cases (w & e & -> & Hw) _ IH]; intros a0.
    - cbn. by rewrite app_nil_r.
    - assert (syncChainFpStatusLoop_select (Tick w :: cases) a0
              = syncChainFpStatusLoop_select cases
                  (emit (ELog LError "failed to sync finality-provider status") a0))
        as -> by (cbn [syncChainFpStatusLoop_select];
                  unfold SyncFinalityProviderStatus, bind, lift; by rewrite Hw).
      destruct (IH (emit (ELog LError "failed to sync finality-provider status") a0))
        as (H1 & H2 & H3 & H4 & H5).
      rewrite H1, H2, H3, H4, H5. cbn. by rewrite <- app_assoc. }
  destruct (H (emit (ELog LInfo "starting sync FP status loop") a))
    as (H1 & H2 & H3 & H4 & H5).
  rewrite H1, H2, H3, H4, H5. cbn. by rewrite <- app_assoc.
Qed.

Lemma syncChainFpStatusLoop_survives_outage_witness :
  (syncChainFpStatusLoop [Tick chain_is_down; Tick chain_is_down]
     (app_with 7 ACTIVE)).2 = false.
Proof.
  refine (proj1 (syncChainFpStatusLoop_survives_outage
                   [Tick chain_is_down; Tick chain_is_down] (app_with 7 ACTIVE) _)).
  repeat constructor; eexists _, (Errorf "rpc error"); split; reflexivity.
Defined.

(** ** Creation *)


Lemma handleCreateFinalityProviderRequest_record w req a a' r :
  handleCreateFinalityProviderRequest w req a = (a', Ok r) →
  ∃ pk fpAddr sig,
    req_eotsPk req = Some pk ∧
    kr_Address w (req_keyName req) (req_passPhrase req) = Ok fpAddr ∧
    em_SignSchnorrSig w pk (tmhash_Sum w fpAddr) (req_passPhrase req) = Ok sig ∧
    fps a !! pk = None ∧
    fps a' = <[pk := created_record w req pk fpAddr sig]> (fps a) ∧
    history a' = history a ++
      [ ERecordFpStatus pk CREATED;
        ELog LInfo "successfully created a finality-provider" ] ∧
    FpInfo r = store.ToFinalityProviderInfo (created_record w req pk fpAddr sig).
Proof.
  unfold handleCreateFinalityProviderRequest, bind at 1, check.
  destruct (kr_NewChainKeyringControllerWithKeyring w _); [discriminate|].
  unfold bind at 1, wrapf at 1, lift.
  destruct (kr_Address w _ _) as [addr|] eqn:Haddr; [|discriminate].
  destruct (req_eotsPk req) as [pk|]; [|discriminate].
  unfold bind at 1, wrapf at 1, CreatePop, bind at 1, wrapf at 1, lift,
    MustMarshal.
  destruct (em_SignSchnorrSig w _ _ _) as [sig|] eqn:Hsig; [|discriminate].
  unfold ret at 1, bind at 1, wrapf at 1, fps_CreateFinalityProvider,
    store.CreateFinalityProvider, MustToBTCPK.
  destruct (fps a !! pk) eqn:Hpk; [discriminate|].
  unfold bind at 1, effect at 1, bind at 1, log, effect at 1, bind at 1,
    fps_GetFinalityProvider, store.GetFinalityProvider.
  cbn [fps emit set_fps]. rewrite lookup_insert_eq. unfold ret.
  intros H. injection H as <- <-.
  exists pk, addr, sig. cbn [fps emit set_fps history FpInfo BtcSig].
  repeat split; try done. by rewrite <- app_assoc.
Qed.



(** X10. A creation that is answered with success has stored, under the
    EOTS public key of the request, a record in CREATED made of the fields
    of the request, of the address the keyring gives for the key name, and
    of a proof of possession that verifies under the public key against
    that address; the answer describes this record, and the effects of the
    call are the metric and the log of the creation. *)
Theorem creation_stores_a_verified_record (w : World)
    (req : createFinalityProviderRequest) (a a' : App)
    (r : createFinalityProviderResponse) :
  signs_soundly w →
  CreateFinalityProvider w req a = (a', Some (Ok r)) →
  ∃ pk fpAddr sig,
    req_eotsPk req = Some pk ∧
    kr_Address w (req_keyName req) (req_passPhrase req) = Ok fpAddr ∧
    fps a' = <[pk := created_record w req pk fpAddr sig]> (fps a) ∧
    PoP_Verify w fpAddr pk {| BtcSigType := BIP340; BtcSig := sig |} = true ∧
    FpInfo r = store.ToFinalityProviderInfo (created_record w req pk fpAddr sig) ∧
    history a' = history a ++
      [ ERecordFpStatus pk CREATED;
        ELog LInfo "successfully created a finality-provider" ].
Proof.
  intros Hsound. unfold CreateFinalityProvider.
  destruct (loops_running a); [|discriminate].
  unfold eventLoop_create, bind, ret.
  destruct (handleCreateFinalityProviderRequest w req a) as [a1 [x|e1]] eqn:Hc;
    [|discriminate].
  intros H. injection H as <- <-.
  apply handleCreateFinalityProviderRequest_record in Hc
    as (pk & addr & sig & Hpk & Haddr & Hsig & _ & Hfps & Hhist & Hinfo).
  exists pk, addr, sig. repeat split; try done.
  unfold PoP_Verify. cbn. by eapply Hsound.
Qed.

Lemma creation_stores_a_verified_record_witness :
  ∃ pk fpAddr sig,
    req_eotsPk (a_request 7) = Some pk ∧
    kr_Address quiet (req_keyName (a_request 7)) (req_passPhrase (a_request 7))
      = Ok fpAddr ∧
    fps (CreateFinalityProvider quiet (a_request 7) (app_with 8 ACTIVE)).1
      = <[pk := created_record quiet (a_request 7) pk fpAddr sig]>
          (fps (app_with 8 ACTIVE)) ∧
    PoP_Verify quiet fpAddr pk {| BtcSigType := BIP340; BtcSig := sig |} = true ∧
    FpInfo {| FpInfo := store.ToFinalityProviderInfo (a_provider 7 CREATED) |}
      = store.ToFinalityProviderInfo (created_record quiet (a_request 7) pk fpAddr sig) ∧
    history (CreateFinalityProvider quiet (a_request 7) (app_with 8 ACTIVE)).1
      = history (app_with 8 ACTIVE) ++
        [ ERecordFpStatus pk CREATED;
          ELog LInfo "successfully created a finality-provider" ].
Proof.
  apply (creation_stores_a_verified_record quiet (a_request 7) (app_with 8 ACTIVE)
           _ _ quiet_signs_soundly).
  vm_compute. reflexivity.
Defined.

(** ** Registration *)

(** X11. A registration submits what creation stored.  When
    [RegisterFinalityProvider] is answered with success, the transaction it
    submitted carries the key of the stored record, the stored signature
    read as a BIP-340 signature and marshalled as a proof of possession of
    type BIP340, the stored commission and the stored description; the
    caller gives nothing but the key, and the address in the answer is the
    stored address. *)
Theorem registration_submits_the_stored_record (w : World) (s : string)
    (a a' : App) (resp : RegisterFinalityProviderResponse) :
  RegisterFinalityProvider w s a = (a', Some (Ok resp)) →
  ∃ pk fp sig popBytes desBytes,
    NewBIP340PubKeyFromHex w s = Ok pk ∧ fps a !! pk = Some fp ∧
    NewBIP340Signature w (Pop fp) = Ok sig ∧
    pop_Marshal w {| BtcSigType := BIP340; BtcSig := sig |} = Ok popBytes ∧
    description_Marshal w (Descr fp) = Ok desBytes ∧
    AccAddressFromBech32 w (FPAddr fp) = Ok (bbnAddress resp) ∧
    List.filter is_submit
      (drop (length (history a)) (history a'))
    = [ESubmit (TxRegister (BtcPk fp) popBytes (Commission fp) desBytes)].
Proof.
  unfold RegisterFinalityProvider, RegisterFinalityProvider_request, bind, lift,
    fps_GetFinalityProvider, store.GetFinalityProvider, MustToBTCPK, ret, fail.
  destruct (NewBIP340PubKeyFromHex w s) as [pk|] eqn:Hparse; [|discriminate].
  destruct (fps a !! pk) as [fp|] eqn:Hpk; [|discriminate].
  case_bool_decide as Hs; [discriminate|].
  destruct (NewBIP340Signature w (Pop fp)) as [btcSig|] eqn:Hsig; [|discriminate].
  destruct (AccAddressFromBech32 w (FPAddr fp)) as [fpAddr|] eqn:Haddr;
    [|discriminate].
  destruct (loops_running a); [|discriminate].
  unfold reply_error, registrationLoop_request, bind, lift, submit, log, effect,
    ret, NewBIP340PubKeyFromBTCPK, MustToBTCPK, sig_MustMarshal.
  cbn [rr_pop rr_description rr_btcPubKey rr_commission rr_fpAddr].
  destruct (pop_Marshal w _) as [popBytes|] eqn:Hpop; [|discriminate].
  destruct (description_Marshal w _) as [desBytes|] eqn:Hdes; [|discriminate].
  destruct (cc_RegisterFinalityProvider w _ _ _ _) as [tx|] eqn:Htx;
    [|discriminate].
  unfold eventLoop_registered, fps_SetFpStatus, store.SetFpStatus, MustToBTCPK.
  cbn [fps emit ev_btcPubKey ev_bbnAddress ev_txHash].
  destruct (fps a !! BtcPk fp) as [fp0|] eqn:Hpk0; [|discriminate].
  case_bool_decide as Hs0; [discriminate|].
  intros H. injection H as <- <-.
  exists pk, fp, btcSig, popBytes, desBytes.
  cbn [fps emit set_fps history bbnAddress].
  repeat split; try done.
  rewrite <- !app_assoc, drop_app_length. reflexivity.
Qed.

Lemma registration_submits_the_stored_record_witness :
  ∃ pk fp sig popBytes desBytes,
    NewBIP340PubKeyFromHex quiet "1234567" = Ok pk ∧
    fps (app_with 7 CREATED) !! pk = Some fp ∧
    NewBIP340Signature quiet (Pop fp) = Ok sig ∧
    pop_Marshal quiet {| BtcSigType := BIP340; BtcSig := sig |} = Ok popBytes ∧
    description_Marshal quiet (Descr fp) = Ok desBytes ∧
    AccAddressFromBech32 quiet (FPAddr fp)
      = Ok (bbnAddress {| bbnAddress := []; btcPubKey := 7; TxHash := "0xAA" |}) ∧
    List.filter is_submit
      (drop (length (history (app_with 7 CREATED)))
         (history (RegisterFinalityProvider quiet "1234567" (app_with 7 CREATED)).1))
    = [ESubmit (TxRegister (BtcPk fp) popBytes (Commission fp) desBytes)].
Proof.
  apply (registration_submits_the_stored_record quiet "1234567" (app_with 7 CREATED)).
  vm_compute. reflexivity.
Defined.

(** X12. A provider is registered once.  In a store in which every record
    sits under its own key, after a registration that was answered with
    success a second registration of the same key is refused as already
    registered, submits nothing and changes nothing, whatever the chain
    would answer. *)
Theorem register_twice (w w' : World) (s : string) (a a1 : App)
    (resp : RegisterFinalityProviderResponse) :
  keyed (fps a) →
  RegisterFinalityProvider w s a = (a1, Some (Ok resp)) →
  NewBIP340PubKeyFromHex w' s = NewBIP340PubKeyFromHex w s →
  RegisterFinalityProvider w' s a1
  = (a1, Some (Err (Errorf "finality-provider is already registered"))).
Proof.
  intros Hkeyed Hreg Hparse.
  apply RegisterFinalityProvider_cases in Hreg
    as (pk & fp & fp0 & popBytes & desBytes & Hpk & Hfp & _ & _ & _ & Hfp0 & Hfps & _).
  rewrite (Hkeyed _ _ Hfp) in Hfp0, Hfps.
  apply (RegisterFinalityProvider_not_CREATED w' s a1 pk (with_Status REGISTERED fp0)).
  - by rewrite Hparse.
  - rewrite Hfps. apply lookup_insert_eq.
  - discriminate.
Qed.

Lemma register_twice_witness :
  RegisterFinalityProvider (with_voting_power 1 quiet) "1234567"
    (RegisterFinalityProvider quiet "1234567" (app_with 7 CREATED)).1
  = ((RegisterFinalityProvider quiet "1234567" (app_with 7 CREATED)).1,
     Some (Err (Errorf "finality-provider is already registered"))).
Proof.
  apply (register_twice quiet (with_voting_power 1 quiet) "1234567"
           (app_with 7 CREATED) _
           {| bbnAddress := []; btcPubKey := 7; TxHash := "0xAA" |}).
  - intros pk fp. unfold app_with. cbn [fps set_fps].
    intros H. apply lookup_singleton_Some in H as [<- <-]. reflexivity.
  - vm_compute. reflexivity.
  - reflexivity.
Defined.

(** ** Unjailing *)

(** X13. [UnjailFinalityProvider] touches one record only: whatever the
    outcome, every other stored provider, the running instances and the
    control fields are as before, and at most one transaction, the unjail
    of that provider, is submitted. *)
Theorem unjail_touches_one_record (w : World) (pk : PK) (a : App) :
  (∀ pk', pk' ≠ pk → fps (UnjailFinalityProvider w pk a).1 !! pk' = fps a !! pk') ∧
  running (UnjailFinalityProvider w pk a).1 = running a ∧
  control (UnjailFinalityProvider w pk a).1 = control a ∧
  (List.filter is_submit
     (drop (length (history a)) (history (UnjailFinalityProvider w pk a).1)) = []
   ∨
   List.filter is_submit
     (drop (length (history a)) (history (UnjailFinalityProvider w pk a).1))
   = [ESubmit (TxUnjail pk)]).
Proof.
  rewrite UnjailFinalityProvider_eq.
  destruct (fps a !! pk) as [fp|] eqn:Hpk.
  2:{ repeat split; try done. left. cbn. by rewrite drop_all. }
  cbn zeta.
  destruct (cc_UnjailFinalityProvider w pk) as [tx|e].
  - case_bool_decide.
    + repeat split; try done. right. cbn. by rewrite drop_app_length.
    + repeat split; try done.
      * intros pk' Hne. cbn. by rewrite lookup_insert_ne.
      * right. cbn. rewrite <- !app_assoc. by rewrite drop_app_length.
  - repeat split; try done. right. cbn. by rewrite drop_app_length.
Qed.

(** * Properties of [testutil/datagen.go] *)

Section Datagen.
Import testutil.
Context {R : Type} (rand : Rand R).

Lemma hex_EncodeToString_length (src : bytes) :
  String.length (hex_EncodeToString src) = (2 * length src)%nat.
Proof. induction src as [|v rest IH]; [done|]. cbn. rewrite IH. lia. Qed.

Lemma hex_digits_of_byte (v : Byte.byte) :
  In (hex_digit (N.shiftr (Byte.to_N v) 4)) (String.list_ascii_of_string hextable) ∧
  In (hex_digit (N.land (Byte.to_N v) 15)) (String.list_ascii_of_string hextable).
Proof.
  destruct v; split; vm_compute; repeat ((left; reflexivity) || right).
Qed.

Lemma hex_EncodeToString_digits (src : bytes) :
  Forall (λ c, In c (String.list_ascii_of_string hextable))
    (String.list_ascii_of_string (hex_EncodeToString src)).
Proof.
  induction src as [|v rest IH]; [constructor|].
  destruct (hex_digits_of_byte v) as [Hhi Hlo].
  cbn [hex_EncodeToString String.list_ascii_of_string].
  constructor; [exact Hhi|]. constructor; [exact Hlo|exact IH].
Qed.

Lemma unhex_digits (v : Byte.byte) :
  unhex (hex_digit (N.shiftr (Byte.to_N v) 4)) (hex_digit (N.land (Byte.to_N v) 15))
  = Some v.
Proof. destruct v; vm_compute; reflexivity. Qed.

Lemma hex_EncodeToString_inj (src src' : bytes) :
  hex_EncodeToString src = hex_EncodeToString src' → src = src'.
Proof.
  revert src'. induction src as [|v rest IH]; intros [|v' rest']; cbn;
    try done.
  intros H. injection H as Hhi Hlo Hrest.
  pose proof (unhex_digits v) as Hv. rewrite Hhi, Hlo, unhex_digits in Hv.
  injection Hv as ->. f_equal. by apply IH.
Qed.

(** X14. [GenRandomHexStr] of length [n] is a string of [2 n] characters,
    all of them digits of [0123456789abcdef], and it is the hex encoding
    of the [n] bytes that [GenRandomByteArray] draws from the same
    generator; the encoding tells byte arrays apart, so two draws give
    the same string only when they give the same bytes. *)
Theorem GenRandomHexStr_shape (r r' : R) (n : N) :
  lawful rand →
  String.length (GenRandomHexStr rand r n).1 = (2 * N.to_nat n)%nat ∧
  Forall (λ c, In c (String.list_ascii_of_string hextable))
    (String.list_ascii_of_string (GenRandomHexStr rand r n).1) ∧
  (GenRandomHexStr rand r n).2 = (GenRandomByteArray rand r n).2 ∧
  ((GenRandomHexStr rand r n).1 = (GenRandomHexStr rand r' n).1 →
   (GenRandomByteArray rand r n).1 = (GenRandomByteArray rand r' n).1).
Proof.
  intros (Hread & _ & _). unfold GenRandomHexStr, GenRandomByteArray.
  pose proof (Hread r (N.to_nat n)) as Hlen.
  destruct (Read rand r (N.to_nat n)) as [bs r1].
  destruct (Read rand r' (N.to_nat n)) as [bs' r1'].
  cbn [fst snd] in *. repeat split.
  - by rewrite hex_EncodeToString_length, Hlen.
  - apply hex_EncodeToString_digits.
  - apply hex_EncodeToString_inj.
Qed.

(** The turns of the loop of [GenBlocks] that are left when the counter
    is at [i]: [n] of them, none of which wraps the counter around. *)
Lemma GenBlocks_loop_ends (n : nat) :
  lawful rand →
  ∀ fuel r i endHeight blocks,
    endHeight < 2 ^ 64 - 1 →
    i + N.of_nat n = endHeight + 1 →
    (n < fuel)%nat →
    ∃ bs r',
      GenBlocks_loop rand fuel r i endHeight blocks = Some (blocks ++ bs, r') ∧
      Height <$> bs = heights_from i n ∧
      Forall (λ b, length (Hash b) = 32%nat) bs.
Proof.
  intros (Hread & _ & _).
  induction n as [|n IH]; intros fuel r i endHeight blocks Hend Hi Hfuel.
  - destruct fuel as [|fuel]; [lia|]. cbn [GenBlocks_loop].
    rewrite (proj2 (N.leb_gt _ _)) by lia.
    exists [], r. by rewrite app_nil_r.
  - destruct fuel as [|fuel]; [lia|]. cbn [GenBlocks_loop].
    rewrite (proj2 (N.leb_le _ _)) by lia.
    unfold GenRandomByteArray.
    pose proof (Hread r (N.to_nat 32)) as Hlen.
    destruct (Read rand r (N.to_nat 32)) as [hash r1]. cbn [fst] in Hlen.
    rewrite N.mod_small by lia.
    destruct (IH fuel r1 (i + 1) endHeight
                (blocks ++ [{| Height := i; Hash := hash |}]))
      as (bs & r' & Hloop & Hh & Hhash); [done|lia|lia|].
    exists ({| Height := i; Hash := hash |} :: bs), r'. split; [|split].
    + rewrite Hloop. by rewrite <- app_assoc.
    + rewrite fmap_cons, Hh. unfold heights_from.
      cbn [seq fmap list_fmap Height]. f_equal; [cbn; lia|].
      rewrite <- seq_shift, <- list_fmap_compose.
      apply list_fmap_ext. intros _ k _. cbn. lia.
    + constructor; [exact Hlen|exact Hhash].
Qed.

(** X15. [GenBlocks] from [startHeight] to [endHeight], when the end is
    below the largest [uint64], returns after [endHeight + 1 -
    startHeight] turns one block for each height from the start to the
    end, in order and each with a hash of 32 bytes, and no block when the
    start is above the end. *)
Theorem GenBlocks_heights (fuel : nat) (r : R) (startHeight endHeight : N) :
  lawful rand →
  endHeight < 2 ^ 64 - 1 →
  (N.to_nat (endHeight + 1 - startHeight) < fuel)%nat →
  ∃ blocks r',
    GenBlocks rand fuel r startHeight endHeight = Some (blocks, r') ∧
    Height <$> blocks
    = heights_from startHeight (N.to_nat (endHeight + 1 - startHeight)) ∧
    Forall (λ b, length (Hash b) = 32%nat) blocks.
Proof.
  intros Hlaw Hend Hfuel. unfold GenBlocks.
  destruct (decide (startHeight ≤ endHeight + 1)) as [Hle|Hgt].
  - destruct (GenBlocks_loop_ends (N.to_nat (endHeight + 1 - startHeight)) Hlaw
                fuel r startHeight endHeight []) as (bs & r' & H); try done.
    + lia.
    + by exists bs, r'.
  - replace (endHeight + 1 - startHeight) with 0 by lia.
    destruct fuel as [|fuel]; [cbn in Hfuel; lia|]. cbn [GenBlocks_loop].
    rewrite (proj2 (N.leb_gt _ _)) by lia.
    by exists [], r.
Qed.

(** X16. [GenBlocks] up to the largest [uint64] does not end: the counter
    is never above the end, so the loop takes every turn it is given,
    whatever the start. *)
Theorem GenBlocks_to_max_never_ends (fuel : nat) (r : R) (startHeight : N) :
  startHeight < 2 ^ 64 →
  GenBlocks rand fuel r startHeight (2 ^ 64 - 1) = None.
Proof.
  unfold GenBlocks. generalize (@nil BlockInfo).
  revert r startHeight.
  induction fuel as [|fuel IH]; intros r i blocks Hi; [done|].
  cbn [GenBlocks_loop]. rewrite (proj2 (N.leb_le _ _)) by lia.
  destruct (GenRandomByteArray rand r 32) as [hash r1].
  apply IH. apply N.mod_lt. lia.
Qed.

Lemma add_seeds_adds (fuel : nat) :
  lawful rand →
  ∀ idx num r corpus,
    idx + N.of_nat fuel = num →
    ∃ seeds,
      (add_seeds rand fuel idx num r corpus).1 = corpus ++ seeds ∧
      length seeds = fuel ∧ Forall (λ s, s < 2 ^ 63) seeds.
Proof.
  intros (_ & Hint & _).
  induction fuel as [|fuel IH]; intros idx num r corpus Hnum.
  - exists []. by rewrite app_nil_r.
  - cbn [add_seeds]. rewrite (proj2 (N.ltb_lt _ _)) by lia.
    pose proof (Hint r) as Hseed.
    destruct (Int63 rand r) as [seed r1]. cbn [fst] in Hseed.
    destruct (IH (idx + 1) num r1 (corpus ++ [seed])) as (seeds & Hs & Hl & Hb);
      [lia|].
    exists (seed :: seeds). split; [|split].
    + rewrite Hs. by rewrite <- app_assoc.
    + cbn. by rewrite Hl.
    + by constructor.
Qed.

(** X17. [AddRandomSeedsToFuzzer] adds exactly [num] seeds to the corpus
    of the fuzzer, after the ones it had, each a non-negative 63-bit
    number. *)
Theorem AddRandomSeedsToFuzzer_adds (r : R) (corpus : list N) (num : N) :
  lawful rand →
  ∃ seeds,
    (AddRandomSeedsToFuzzer rand r corpus num).1 = corpus ++ seeds ∧
    length seeds = N.to_nat num ∧ Forall (λ s, s < 2 ^ 63) seeds.
Proof.
  intros Hlaw. unfold AddRandomSeedsToFuzzer.
  apply add_seeds_adds; [done|]. lia.
Qed.

(** X18. [GenValidSlashingRate] is a whole number of hundredths between
    0.10 and 0.50, both included. *)
Theorem GenValidSlashingRate_range (r : R) :
  lawful rand →
  ∃ percent : Z,
    (GenValidSlashingRate rand r).1 = (percent * 10 ^ 16)%Z ∧
    (10 ≤ percent ≤ 50)%Z.
Proof.
  intros (_ & _ & Hintn). unfold GenValidSlashingRate.
  pose proof (Hintn r 41 ltac:(lia)) as Hx.
  destruct (Intn rand r 41) as [x r1]. cbn [fst] in *.
  exists (Z.of_N (x + 10)). unfold LegacyNewDecWithPrec, to_int64.
  rewrite N.mod_small by lia.
  rewrite (proj2 (N.ltb_lt _ _)) by lia.
  split; [reflexivity|lia].
Qed.
End Datagen.

Lemma counter_lawful : testutil.lawful testutil.counter.
Proof.
  split; [|split].
  - intros k n. cbn. revert k.
    induction n as [|n IH]; intros k; [done|].
    cbn. destruct (Byte.of_N (k mod 256)); cbn; by rewrite IH.
  - intros k. cbn. apply N.mod_lt. lia.
  - intros k n Hn. cbn. apply N.mod_lt. lia.
Defined.

Lemma GenRandomHexStr_shape_witness :
  String.length (testutil.GenRandomHexStr testutil.counter 5 4).1
  = (2 * N.to_nat 4)%nat.
Proof.
  exact (proj1 (GenRandomHexStr_shape testutil.counter 5 6 4 counter_lawful)).
Defined.

Lemma GenBlocks_heights_witness :
  ∃ blocks r',
    testutil.GenBlocks testutil.counter 10 0 101 103 = Some (blocks, r') ∧
    Height <$> blocks = testutil.heights_from 101 (N.to_nat (103 + 1 - 101)) ∧
    Forall (λ b, length (Hash b) = 32%nat) blocks.
Proof.
  apply (GenBlocks_heights testutil.counter 10 0 101 103 counter_lawful).
  - reflexivity.
  - cbn. lia.
Defined.

Lemma GenBlocks_to_max_never_ends_witness :
  testutil.GenBlocks testutil.counter 5 0 7 (2 ^ 64 - 1) = None.
Proof.
  apply (GenBlocks_to_max_never_ends testutil.counter 5 0 7). reflexivity.
Defined.

Lemma AddRandomSeedsToFuzzer_adds_witness :
  ∃ seeds,
    (testutil.AddRandomSeedsToFuzzer testutil.counter 3 [1; 2] 10).1 = [1; 2] ++ seeds ∧
    length seeds = N.to_nat 10 ∧ Forall (λ s, s < 2 ^ 63) seeds.
Proof.
  exact (AddRandomSeedsToFuzzer_adds testutil.counter 3 [1; 2] 10 counter_lawful).
Defined.

Lemma GenValidSlashingRate_range_witness :
  ∃ percent : Z,
    (testutil.GenValidSlashingRate testutil.counter 45).1 = (percent * 10 ^ 16)%Z ∧
    (10 ≤ percent ≤ 50)%Z.
Proof.
  exact (GenValidSlashingRate_range testutil.counter 45 counter_lawful).
Defined.
